(** * kesmarag/ml-gmm: the EM fit of a Gaussian mixture model (gmm.py)

    A shallow embedding of class [GMM] of [gmm.py].

    Numbers.  numpy's float64 is idealised as the real numbers [R]: sums may
    be reassociated, there is no rounding, no NaN and no infinity.  The
    constants 0.05 and 0.02 are the decimal fractions.  Beyond rounding the
    idealisation hides that a float64 overflows (a non-zero diagonal entry
    is infinite after some 14500 perturbations, and [np.linalg.eigvals]
    refuses a matrix that is not finite), underflows (a density far from
    the mean is 0.0, [exp] being positive in [R]) and absorbs ([tol + 1.0]
    is [tol] from 2^53 on), and that a division by zero gives NaN or an
    infinity where [R] has [x / 0 = 0].  The statements are made where the
    two agree: about what a call that returns has computed, about matrices
    that the perturbation leaves exactly as they are, and under bounds on
    the inputs that keep the numbers in range.

    Arrays.  A numpy array of rank 1 to 4 is a list nested as deep, row-major;
    an element is read with [nth] (default 0).
    The array operations of the source (broadcasting, [np.sum] along an axis,
    [np.dot], [np.matmul]) are written out index by index over the shape of
    their result with [tabulate].

    State.  Every method of the class takes [self] and updates its fields in
    place, so a method is a computation in a state monad over the record
    [GMM]; a [while] loop whose exit depends on data is given fuel, and the
    state reached when the fuel is spent is kept, as a Python object keeps
    the assignments made before a loop hangs.

    External code.  [np.linalg.eigvals], scipy's [multivariate_normal] and
    sklearn's [KMeans] are parameters of the development; the drawn matrix of
    [np.random.randn] is an argument of the constructor.  They are total
    functions here: the exceptions that the libraries raise (on a matrix
    that is not finite or is singular, on shapes that do not fit, on fewer
    rows than clusters) are not modelled, so that a result [Ok] of the
    general development stands for a return of the source only where the
    libraries return. *)

From Stdlib Require Import Reals Lra List ZArith Lia Bool.
Import ListNotations.
Open Scope R_scope.

(** ** Numbers *)

Definition Rgtb (a b : R) : bool := if Rgt_dec a b then true else false.

(** ** Arrays *)

Definition vec := list R.
Definition matrix := list vec.
Definition tensor3 := list matrix.
Definition tensor4 := list tensor3.

Definition tabulate {A : Type} (n : nat) (f : nat -> A) : list A :=
  map f (seq 0 n).

Definition vget (v : vec) (i : nat) : R := nth i v 0.
Definition row (a : matrix) (i : nat) : vec := nth i a [].
Definition mget (a : matrix) (i j : nat) : R := vget (row a i) j.
Definition slab (t : tensor3) (k : nat) : matrix := nth k t [].
Definition tget (t : tensor3) (k i j : nat) : R := mget (slab t k) i j.
Definition qget (q : tensor4) (n k i j : nat) : R := tget (nth n q []) k i j.

(** [np.sum] of a vector. *)
Definition Rsum (v : vec) : R := fold_right Rplus 0 v.

(** [a.shape[0]] and [a.shape[1]] of a matrix with at least one row. *)
Definition shape0 (a : matrix) : nat := length a.
Definition shape1 (a : matrix) : nat := length (row a 0).

(** Elementwise operations on arrays of one shape. *)
Fixpoint vec_map2 (f : R -> R -> R) (a b : vec) : vec :=
  match a, b with
  | x :: a', y :: b' => f x y :: vec_map2 f a' b'
  | _, _ => []
  end.

Fixpoint mat_map2 (f : R -> R -> R) (a b : matrix) : matrix :=
  match a, b with
  | x :: a', y :: b' => vec_map2 f x y :: mat_map2 f a' b'
  | _, _ => []
  end.

Definition mat_scale (c : R) (a : matrix) : matrix := map (map (Rmult c)) a.

(** [np.identity(d)]. *)
Definition identity (d : nat) : matrix :=
  tabulate d (fun i => tabulate d (fun j => if Nat.eqb i j then 1 else 0)).

(** [a[k] = v] on a list; out of range the source raises, the model leaves
    the list as it is. *)
Fixpoint update {A : Type} (k : nat) (v : A) (l : list A) : list A :=
  match l, k with
  | [], _ => []
  | _ :: l', O => v :: l'
  | x :: l', S k' => x :: update k' v l'
  end.

(** [np.linspace(start, stop, num)], end point included. *)
Definition linspace (start stop : R) (num : nat) : vec :=
  tabulate num (fun k => start + INR k * ((stop - start) / INR (num - 1))).

(** [matplotlib.mlab.normpdf(x, mu, sigma)]:
    [1/(sqrt(2*pi)*sigma) * exp(-0.5 * (1/sigma*(x - mu))**2)]. *)
Definition normpdf (x mu sigma : R) : R :=
  1 / (sqrt (2 * PI) * sigma) * exp (- 0.5 * (1 / sigma * (x - mu)) ^ 2).

(** ** The model object and the monad of its methods *)

Record GMM := mkGMM {
  _m : nat;
  _d : nat;
  _pi : vec;
  _mu : matrix;
  _sigma : tensor3;
  _gamma : option matrix;
  _post : R
}.

(** The two error kinds of the specification.  The source has no [raise]:
    no method below ever produces [Raise]. *)
Inductive error := InvalidArgument | NumericalFailure.

Inductive result (A : Type) : Type :=
| Ok (a : A)
| Raise (e : error)
| OutOfFuel.
Arguments Ok {A} a.
Arguments Raise {A} e.
Arguments OutOfFuel {A}.

Definition M (A : Type) : Type := GMM -> result A * GMM.

Definition ret {A : Type} (a : A) : M A := fun s => (Ok a, s).

Definition bind {A B : Type} (c : M A) (k : A -> M B) : M B :=
  fun s =>
    match c s with
    | (Ok a, s') => k a s'
    | (Raise e, s') => (Raise e, s')
    | (OutOfFuel, s') => (OutOfFuel, s')
    end.

Definition get : M GMM := fun s => (Ok s, s).
Definition timeout {A : Type} : M A := fun s => (OutOfFuel, s).

Notation "x <- c ;; k" := (bind c (fun x => k))
  (at level 61, c at next level, right associativity).
Notation "c ;;; k" := (bind c (fun _ => k))
  (at level 61, right associativity).

(** Assignments to the attributes of [self]. *)
Definition set_pi (v : vec) : M unit :=
  fun s => (Ok tt, mkGMM (_m s) (_d s) v (_mu s) (_sigma s) (_gamma s) (_post s)).
Definition set_mu (v : matrix) : M unit :=
  fun s => (Ok tt, mkGMM (_m s) (_d s) (_pi s) v (_sigma s) (_gamma s) (_post s)).
Definition set_sigma (v : tensor3) : M unit :=
  fun s => (Ok tt, mkGMM (_m s) (_d s) (_pi s) (_mu s) v (_gamma s) (_post s)).
Definition set_gamma (v : matrix) : M unit :=
  fun s => (Ok tt, mkGMM (_m s) (_d s) (_pi s) (_mu s) (_sigma s) (Some v) (_post s)).
Definition set_post (v : R) : M unit :=
  fun s => (Ok tt, mkGMM (_m s) (_d s) (_pi s) (_mu s) (_sigma s) (_gamma s) v).

(** [for x in l: body(x)]. *)
Fixpoint for_each {A : Type} (l : list A) (body : A -> M unit) : M unit :=
  match l with
  | [] => ret tt
  | x :: l' => body x ;;; for_each l' body
  end.

(** The attributes that [GMM.__init__] assigns; [randn] is the matrix that
    [np.random.randn(m, d)] draws. *)
Definition new_model (num_mixtures data_dim : nat) (randn : matrix) : GMM :=
  mkGMM num_mixtures data_dim
    (map (fun x => x / INR num_mixtures) (repeat 1 num_mixtures))
    randn
    (repeat (identity data_dim) num_mixtures)
    None
    0.

(** [GMM.__init__(num_mixtures, data_dim)].  Array shapes are natural
    numbers: a negative size is refused by numpy before any object exists. *)
Definition __init__ (num_mixtures data_dim : nat) (randn : matrix) : result GMM :=
  Ok (new_model num_mixtures data_dim randn).

(** The perturbation [cov + 0.05 * np.identity(d) * cov], all products
    elementwise. *)
Definition perturb (d : nat) (cov : matrix) : matrix :=
  mat_map2 Rplus cov (mat_map2 Rmult (mat_scale 0.05 (identity d)) cov).

Definition lift {A : Type} (r : result A) : M A := fun s => (r, s).

Definition gamma_of (s : GMM) : matrix :=
  match _gamma s with Some g => g | None => [] end.

(** ** The methods *)

Section Methods.

(** [np.linalg.eigvals]. *)
Variable eigvals : matrix -> list R.
(** [multivariate_normal.pdf(x, mean, cov)] at one point [x]. *)
Variable mvn_pdf : vec -> vec -> matrix -> R.
(** [KMeans(n_clusters=k, random_state=0).fit(data).cluster_centers_]. *)
Variable kmeans : matrix -> nat -> matrix.

(** [GMM._is_pos_def]: [np.all(np.linalg.eigvals(sigma) > 0.02)]. *)
Definition _is_pos_def (sigma : matrix) : bool :=
  forallb (fun e => Rgtb e 0.02) (eigvals sigma).

(** The loop of [get_multivariate], on the local [cov]:
    [while not self._is_pos_def(cov): cov = cov + 0.05 * np.identity(2) * cov]. *)
Fixpoint repair (fuel : nat) (d : nat) (cov : matrix) : result matrix :=
  if _is_pos_def cov then Ok cov
  else match fuel with
       | O => OutOfFuel
       | S f => repair f d (perturb d cov)
       end.

(** The loop of [_expectation_maximization], on [self._sigma[k]] in place. *)
Fixpoint repair_sigma (fuel : nat) (k : nat) : M unit :=
  s <- get ;;
  if _is_pos_def (slab (_sigma s) k) then ret tt
  else match fuel with
       | O => timeout
       | S f =>
           set_sigma (update k (perturb (_d s) (slab (_sigma s) k)) (_sigma s)) ;;;
           repair_sigma f k
       end.

(** *** E-step: the local arrays of [_expectation_maximization] *)

Definition e_mixture (s : GMM) (data : matrix) : matrix :=
  tabulate (_m s) (fun m =>
    map (fun x => mvn_pdf x (row (_mu s) m) (slab (_sigma s) m)) data).

Definition e_pi_mixture (s : GMM) (data : matrix) : matrix :=
  tabulate (_m s) (fun m =>
    tabulate (shape0 data) (fun n =>
      vget (_pi s) m * mget (e_mixture s data) m n)).

Definition e_sum_m_pi_mixture (s : GMM) (data : matrix) : vec :=
  tabulate (shape0 data) (fun n =>
    Rsum (tabulate (_m s) (fun m => mget (e_pi_mixture s data) m n))).

Definition e_gamma (s : GMM) (data : matrix) : matrix :=
  tabulate (_m s) (fun m =>
    tabulate (shape0 data) (fun n =>
      mget (e_pi_mixture s data) m n / vget (e_sum_m_pi_mixture s data) n)).

(** *** M-step: the local arrays of [_expectation_maximization] *)

(** [N_m = np.sum(self._gamma, axis=-1)]. *)
Definition m_N_m (gamma : matrix) : vec := map Rsum gamma.

(** [N_m / data.shape[0]]. *)
Definition m_pi (gamma data : matrix) : vec :=
  map (fun x => x / INR (shape0 data)) (m_N_m gamma).

(** [np.dot(self._gamma, data) / np.expand_dims(N_m, -1)]. *)
Definition m_mu (gamma data : matrix) : matrix :=
  tabulate (shape0 gamma) (fun m =>
    tabulate (shape1 data) (fun j =>
      Rsum (tabulate (shape0 data) (fun n => mget gamma m n * mget data n j))
      / vget (m_N_m gamma) m)).

(** [np.expand_dims(np.subtract(np.expand_dims(data, -2), self._mu), -1)],
    of shape (N, M, D, 1). *)
Definition m_x_m_mu (mu data : matrix) : tensor4 :=
  tabulate (shape0 data) (fun n =>
    tabulate (shape0 mu) (fun m =>
      tabulate (shape1 data) (fun i =>
        [mget data n i - mget mu m i]))).

(** [np.matrix.transpose(x_m_mu, (0, 1, 3, 2))], of shape (N, M, 1, D). *)
Definition m_x_m_mu_T (mu data : matrix) : tensor4 :=
  tabulate (shape0 data) (fun n =>
    tabulate (shape0 mu) (fun m =>
      tabulate 1 (fun t =>
        tabulate (shape1 data) (fun j => qget (m_x_m_mu mu data) n m j t)))).

(** [np.matmul(x_m_mu, ...)], of shape (N, M, D, D). *)
Definition m_xi (mu data : matrix) : tensor4 :=
  tabulate (shape0 data) (fun n =>
    tabulate (shape0 mu) (fun m =>
      tabulate (shape1 data) (fun i =>
        tabulate (shape1 data) (fun j =>
          Rsum (tabulate 1 (fun t =>
            qget (m_x_m_mu mu data) n m i t * qget (m_x_m_mu_T mu data) n m t j)))))).

(** [np.multiply(np.expand_dims(np.expand_dims(np.transpose(self._gamma), -1), -1), xi)]. *)
Definition m_phi (gamma mu data : matrix) : tensor4 :=
  tabulate (shape0 data) (fun n =>
    tabulate (shape0 mu) (fun m =>
      tabulate (shape1 data) (fun i =>
        tabulate (shape1 data) (fun j =>
          mget gamma m n * qget (m_xi mu data) n m i j)))).

(** [np.sum(phi, axis=0) / np.expand_dims(np.expand_dims(N_m, -1), -1)]. *)
Definition m_sigma (gamma mu data : matrix) : tensor3 :=
  tabulate (shape0 mu) (fun m =>
    tabulate (shape1 data) (fun i =>
      tabulate (shape1 data) (fun j =>
        Rsum (tabulate (shape0 data) (fun n => qget (m_phi gamma mu data) n m i j))
        / vget (m_N_m gamma) m))).

(** [GMM._expectation_maximization(data, tol)], the E-step and the
    assignments of the M-step (up to [self._sigma = ...]); the value is the
    local [sum_m_pi_mixture]. *)
Definition em_update (data : matrix) : M vec :=
  s <- get ;;
  let sum_m_pi_mixture := e_sum_m_pi_mixture s data in
  set_gamma (e_gamma s data) ;;;
  s1 <- get ;;
  set_pi (m_pi (gamma_of s1) data) ;;;
  set_mu (m_mu (gamma_of s1) data) ;;;
  s2 <- get ;;
  set_sigma (m_sigma (gamma_of s2) (_mu s2) data) ;;;
  ret sum_m_pi_mixture.

(** [GMM._expectation_maximization(data, tol)]. *)
Definition _expectation_maximization (fuel : nat) (data : matrix) (tol : R) : M unit :=
  sum_m_pi_mixture <- em_update data ;;
  s <- get ;;
  for_each (seq 0 (_m s)) (repair_sigma fuel) ;;;
  set_post (Rsum (map ln sum_m_pi_mixture)).

(** The [while] loop of [GMM.fit]; the value returned is the final [step],
    the number of iterations done. *)
Fixpoint fit_while (fuel inner : nat) (data : matrix) (max_steps : Z) (tol : R)
    (use_kmeans : bool) (step : Z) (post_prev : R) : M Z :=
  s <- get ;;
  if Rgtb (Rabs (_post s - post_prev) / INR (shape0 data)) tol
     && (step <? max_steps)%Z
  then
    match fuel with
    | O => timeout
    | S f =>
        (if (step =? 0)%Z && use_kmeans
         then set_mu (kmeans data (_m s)) else ret tt) ;;;
        s1 <- get ;;
        _expectation_maximization inner data tol ;;;
        fit_while f inner data max_steps tol use_kmeans (step + 1)%Z (_post s1)
    end
  else ret step.

(** [GMM.fit(data, max_steps, tol, use_kmeans)]. *)
Definition fit (fuel : nat) (data : matrix) (max_steps : Z) (tol : R)
    (use_kmeans : bool) : M Z :=
  fit_while fuel fuel data max_steps tol use_kmeans 0%Z
    ((tol + 1.0) * INR (shape0 data)).

(** [GMM.get_marginal(i, interval, plot_interval, scaling_factor, num_samples)]. *)
Definition get_marginal (i : nat) (interval plot_interval : R * R)
    (scaling_factor : R) (num_samples : nat) : M (vec * vec) :=
  s <- get ;;
  let ra := (snd interval - fst interval) / (2.0 * scaling_factor) in
  let c := (fst interval + snd interval) / 2.0 in
  let mu := map (fun r => ra * vget r i + c) (_mu s) in
  let var := map (fun S => mget S i i * ra ^ 2) (_sigma s) in
  let x := linspace (fst plot_interval) (snd plot_interval) num_samples in
  let distr :=
    fold_left (fun distr m =>
      vec_map2 Rplus distr
        (map (fun xk => vget (_pi s) m * normpdf xk (vget mu m) (sqrt (vget var m))) x))
      (seq 0 (_m s)) (map (fun _ => 0) x) in
  ret (x, distr).

(** The body of [for m in range(self._m)] of [get_multivariate], with the
    local accumulator [distr]. *)
Fixpoint multivariate_loop (fuel : nat) (ms : list nat) (i j : nat)
    (ra_i ra_j : R) (mu_i mu_j x_i x_j : vec) (distr : matrix) : M matrix :=
  match ms with
  | [] => ret distr
  | m :: ms' =>
      s <- get ;;
      let mu := [vget mu_i m; vget mu_j m] in
      let cov0 :=
        [[tget (_sigma s) m i i * ra_i ^ 2; tget (_sigma s) m i j * ra_i * ra_j];
         [tget (_sigma s) m i j * ra_i * ra_j; tget (_sigma s) m j j * ra_j ^ 2]] in
      cov <- lift (repair fuel 2 cov0) ;;
      multivariate_loop fuel ms' i j ra_i ra_j mu_i mu_j x_i x_j
        (mat_map2 Rplus distr
           (map (fun y => map (fun x => vget (_pi s) m * mvn_pdf [x; y] mu cov) x_i) x_j))
  end.

(** [GMM.get_multivariate(i, j, intervals, plot_intervals, scaling_factor,
    num_samples)]; the result is [(x, y, distr)]. *)
Definition get_multivariate (fuel : nat) (i j : nat)
    (intervals plot_intervals : (R * R) * (R * R))
    (scaling_factor : R) (num_samples : nat) : M (matrix * matrix * matrix) :=
  s <- get ;;
  let ra_i := (snd (fst intervals) - fst (fst intervals)) / (2.0 * scaling_factor) in
  let ra_j := (snd (snd intervals) - fst (snd intervals)) / (2.0 * scaling_factor) in
  let c_i := (fst (fst intervals) + snd (fst intervals)) / 2.0 in
  let c_j := (fst (snd intervals) + snd (snd intervals)) / 2.0 in
  let mu_i := map (fun r => ra_i * vget r i + c_i) (_mu s) in
  let mu_j := map (fun r => ra_j * vget r j + c_j) (_mu s) in
  let x_i := linspace (fst (fst plot_intervals)) (snd (fst plot_intervals)) num_samples in
  let x_j := linspace (fst (snd plot_intervals)) (snd (snd plot_intervals)) num_samples in
  let x := map (fun _ => x_i) x_j in
  let y := map (fun v => map (fun _ => v) x_i) x_j in
  distr <- multivariate_loop fuel (seq 0 (_m s)) i j ra_i ra_j mu_i mu_j x_i x_j
             (repeat (repeat 0 num_samples) num_samples) ;;
  ret (x, y, distr).

End Methods.

(** ** Instances of the external code, exact on diagonal covariances

    The eigenvalues of a diagonal matrix are its diagonal entries, and the
    normal density with a diagonal covariance is the product of the
    one-dimensional densities of the coordinates.  The concrete runs below
    only meet diagonal matrices. *)

Definition eigvals_diag (a : matrix) : list R :=
  tabulate (length a) (fun i => mget a i i).

Definition mvn_pdf_diag (x mu : vec) (cov : matrix) : R :=
  fold_right Rmult 1
    (tabulate (length cov) (fun i =>
       normpdf (vget x i) (vget mu i) (sqrt (mget cov i i)))).

(** A stand-in for the clustering routine: the first [k] rows as centers. *)
Definition kmeans_first (data : matrix) (k : nat) : matrix := firstn k data.

(** ** Concrete models and datasets *)

(** Two points on a line, and two equal points. *)
Definition data_two : matrix := [[0]; [10]].
Definition data_collapsed : matrix := [[5]; [5]].

(** A model of two mixtures on a line, the second of weight [eps]. *)
Definition thin_model (eps : R) : GMM :=
  mkGMM 2 1 [1 - eps; eps] [[0]; [0]] [[[1]]; [[1]]] None 0.

(** A model of one mixture in the plane that an earlier fit has left with
    log-posterior 2.02, and two rows to fit it on again. *)
Definition refit_model : GMM :=
  mkGMM 1 2 [1] [[0; 0]] [[[0.03; 0]; [0; 0.03]]] (Some [[1; 1]]) 2.02.
Definition refit_data : matrix := [[0; 0]; [0.1; 0.1]].

(** The model of the end-to-end scenario of the specification after its
    fit: one mixture on a line, mean 5, variance 25. *)
Definition fitted_model : GMM :=
  mkGMM 1 1 [1] [[5]] [[[25]]] (Some [[1; 1]]) 0.

(** ** Vocabulary of the statements *)

(** The sum of [f 0 .. f (n-1)]. *)
Fixpoint sigma_sum (n : nat) (f : nat -> R) : R :=
  match n with
  | O => 0
  | S k => sigma_sum k f + f k
  end.

(** [k] perturbations of [cov]. *)
Fixpoint perturb_iter (d : nat) (k : nat) (cov : matrix) : matrix :=
  match k with
  | O => cov
  | S k' => perturb_iter d k' (perturb d cov)
  end.

(** The density of the normal law of mean [mean] and variance [var]. *)
Definition normal_density (mean var x : R) : R :=
  exp (- (x - mean) ^ 2 / (2 * var)) / sqrt (2 * PI * var).

(** Forgetting the value of a result. *)
Definition forget {A : Type} (r : result A) : result unit :=
  match r with Ok _ => Ok tt | Raise e => Raise e | OutOfFuel => OutOfFuel end.

(** [self] with [_sigma] replaced. *)
Definition with_sigma (s : GMM) (v : tensor3) : GMM :=
  mkGMM (_m s) (_d s) (_pi s) (_mu s) v (_gamma s) (_post s).

(** [self] after the E-step and the assignments of the M-step, before the
    repair of the covariances. *)
Definition after_update (mvn_pdf : vec -> vec -> matrix -> R) (s : GMM)
    (data : matrix) : GMM :=
  let g := e_gamma mvn_pdf s data in
  mkGMM (_m s) (_d s) (m_pi g data) (m_mu g data)
    (m_sigma g (m_mu g data) data) (Some g) (_post s).

(** [self] with [_post] replaced. *)
Definition with_post (s : GMM) (v : R) : GMM :=
  mkGMM (_m s) (_d s) (_pi s) (_mu s) (_sigma s) (_gamma s) v.

(** [self] with [_mu] replaced. *)
Definition with_mu (s : GMM) (v : matrix) : GMM :=
  mkGMM (_m s) (_d s) (_pi s) v (_sigma s) (_gamma s) (_post s).

(** The weighted density of data point [n] under mixture [m], and the sum
    over the mixtures, with the parameters of [s]. *)
Definition weighted_density (mvn_pdf : vec -> vec -> matrix -> R) (s : GMM)
    (data : matrix) (m n : nat) : R :=
  vget (_pi s) m * mvn_pdf (row data n) (row (_mu s) m) (slab (_sigma s) m).

Definition mixture_density (mvn_pdf : vec -> vec -> matrix -> R) (s : GMM)
    (data : matrix) (n : nat) : R :=
  sigma_sum (_m s) (fun m => weighted_density mvn_pdf s data m n).

(** The three properties of a model that [fit] is to keep: positive weights
    of sum 1, one per mixture; covariances that pass [_is_pos_def]; columns
    of the responsibilities, once there are any, of sum 1. *)
Definition weights_ok (s : GMM) : Prop :=
  length (_pi s) = _m s /\
  (forall m, (m < _m s)%nat -> 0 < vget (_pi s) m) /\
  Rsum (_pi s) = 1.

Definition covariances_ok (eigvals : matrix -> list R) (s : GMM) : Prop :=
  forall m, (m < _m s)%nat -> _is_pos_def eigvals (slab (_sigma s) m) = true.

Definition responsibilities_ok (s : GMM) : Prop :=
  match _gamma s with
  | None => True
  | Some g =>
      forall n, (n < shape1 g)%nat -> sigma_sum (shape0 g) (fun m => mget g m n) = 1
  end.

(** The models that a program can hold: built with at least one mixture,
    then fitted, each time to completion, on datasets with at least one
    row. *)
Inductive reachable (eigvals : matrix -> list R)
    (mvn_pdf : vec -> vec -> matrix -> R) (kmeans : matrix -> nat -> matrix) :
    GMM -> Prop :=
| reach_new (m d : nat) (randn : matrix) :
    (0 < m)%nat -> reachable eigvals mvn_pdf kmeans (new_model m d randn)
| reach_fit (s s' : GMM) (fuel : nat) (data : matrix) (max_steps : Z) (tol : R)
    (use_kmeans : bool) (n : Z) :
    reachable eigvals mvn_pdf kmeans s ->
    (0 < shape0 data)%nat ->
    fit eigvals mvn_pdf kmeans fuel data max_steps tol use_kmeans s = (Ok n, s') ->
    reachable eigvals mvn_pdf kmeans s'.

(** A [d] x [d] array, and one whose entries off the diagonal are 0. *)
Definition is_square (d : nat) (a : matrix) : Prop :=
  length a = d /\ forall i, (i < d)%nat -> length (row a i) = d.

Definition is_diagonal (d : nat) (a : matrix) : Prop :=
  forall i j, (i < d)%nat -> (j < d)%nat -> i <> j -> mget a i j = 0.

(** The mean of column [j] of the data, and the covariance of columns [i]
    and [j] about the column means (divided by the number of rows). *)
Definition sample_mean (data : matrix) (j : nat) : R :=
  sigma_sum (shape0 data) (fun n => mget data n j) / INR (shape0 data).

Definition sample_cov (data : matrix) (i j : nat) : R :=
  sigma_sum (shape0 data) (fun n =>
    (mget data n i - sample_mean data i) * (mget data n j - sample_mean data j))
  / INR (shape0 data).

(** The 2 x 2 block of covariance [m] for the coordinates [i] and [j] that
    [get_multivariate] rescales, and that block after its repair. *)
Definition rescaled_block (s : GMM) (m i j : nat) (ra_i ra_j : R) : matrix :=
  [[tget (_sigma s) m i i * ra_i ^ 2; tget (_sigma s) m i j * ra_i * ra_j];
   [tget (_sigma s) m i j * ra_i * ra_j; tget (_sigma s) m j j * ra_j ^ 2]].

Definition repaired_block (eigvals : matrix -> list R) (fuel : nat) (s : GMM)
    (m i j : nat) (ra_i ra_j : R) : matrix :=
  match repair eigvals fuel 2 (rescaled_block s m i j ra_i ra_j) with
  | Ok c => c
  | _ => []
  end.

(** ** Lemmas on numbers and arrays *)

Lemma Rgtb_true (a b : R) : a > b -> Rgtb a b = true.
Proof. intro H. unfold Rgtb. destruct (Rgt_dec a b); [reflexivity | contradiction]. Qed.

Lemma Rgtb_false (a b : R) : a <= b -> Rgtb a b = false.
Proof. intro H. unfold Rgtb. destruct (Rgt_dec a b); [lra | reflexivity]. Qed.

Lemma Rgtb_spec (a b : R) : Rgtb a b = true <-> a > b.
Proof.
  unfold Rgtb. destruct (Rgt_dec a b); split; intro H; try assumption;
    try reflexivity; try discriminate; contradiction.
Qed.

Lemma length_tabulate {A : Type} (n : nat) (f : nat -> A) :
  length (tabulate n f) = n.
Proof. unfold tabulate. now rewrite length_map, length_seq. Qed.

Lemma nth_tabulate {A : Type} (n : nat) (f : nat -> A) (i : nat) (d : A) :
  (i < n)%nat -> nth i (tabulate n f) d = f i.
Proof.
  intro H. unfold tabulate.
  rewrite (nth_indep _ d (f 0%nat)) by (now rewrite length_map, length_seq).
  rewrite (map_nth f (seq 0 n) 0%nat i), seq_nth by assumption. reflexivity.
Qed.

Lemma Rsum_app (u v : vec) : Rsum (u ++ v) = Rsum u + Rsum v.
Proof. induction u as [|x u IH]; simpl; [lra | rewrite IH; lra]. Qed.

Lemma Rsum_tabulate (n : nat) (f : nat -> R) :
  Rsum (tabulate n f) = sigma_sum n f.
Proof.
  induction n as [|n IH]; [reflexivity|].
  unfold tabulate in *. rewrite seq_S, map_app, Rsum_app, IH. simpl. lra.
Qed.

Lemma sigma_sum_ext (n : nat) (f g : nat -> R) :
  (forall k, (k < n)%nat -> f k = g k) -> sigma_sum n f = sigma_sum n g.
Proof.
  induction n as [|n IH]; intro H; [reflexivity|].
  simpl. rewrite IH, H by (intros; try apply H; lia). reflexivity.
Qed.

Lemma sigma_sum_plus (n : nat) (f g : nat -> R) :
  sigma_sum n (fun k => f k + g k) = sigma_sum n f + sigma_sum n g.
Proof. induction n as [|n IH]; simpl; [lra | rewrite IH; lra]. Qed.

Lemma sigma_sum_div (n : nat) (f : nat -> R) (c : R) :
  sigma_sum n (fun k => f k / c) = sigma_sum n f / c.
Proof. induction n as [|n IH]; simpl; [lra | rewrite IH; lra]. Qed.

Lemma sigma_sum_const (n : nat) (c : R) :
  sigma_sum n (fun _ => c) = INR n * c.
Proof.
  induction n as [|n IH]; [simpl; lra|].
  rewrite S_INR. simpl sigma_sum. rewrite IH. lra.
Qed.

Lemma sigma_sum_swap (m n : nat) (f : nat -> nat -> R) :
  sigma_sum m (fun i => sigma_sum n (fun j => f i j))
  = sigma_sum n (fun j => sigma_sum m (fun i => f i j)).
Proof.
  induction m as [|m IH]; simpl.
  - rewrite sigma_sum_const. lra.
  - rewrite IH, <- sigma_sum_plus. reflexivity.
Qed.

Lemma sigma_sum_pos (n : nat) (f : nat -> R) :
  (0 < n)%nat -> (forall k, (k < n)%nat -> 0 < f k) -> 0 < sigma_sum n f.
Proof.
  induction n as [|n IH]; intros Hn H; [lia|].
  simpl. destruct n as [|n].
  - simpl. assert (0 < f 0%nat) by (apply H; lia). lra.
  - assert (0 < sigma_sum (S n) f) by (apply IH; [lia | intros; apply H; lia]).
    assert (0 < f (S n)) by (apply H; lia). lra.
Qed.

Lemma nth_update_same {A : Type} (k : nat) (v d : A) (l : list A) :
  (k < length l)%nat -> nth k (update k v l) d = v.
Proof.
  revert k; induction l as [|x l IH]; intros [|k] H; simpl in *; try lia; auto.
  apply IH. lia.
Qed.

Lemma nth_update_other {A : Type} (k k' : nat) (v d : A) (l : list A) :
  k <> k' -> nth k' (update k v l) d = nth k' l d.
Proof.
  revert k k'; induction l as [|x l IH]; intros [|k] [|k'] H; simpl; auto; try lia.
Qed.

Lemma update_beyond {A : Type} (k : nat) (v : A) (l : list A) :
  (length l <= k)%nat -> update k v l = l.
Proof.
  revert k; induction l as [|x l IH]; intros [|k] H; simpl in *; try lia; auto.
  f_equal. apply IH. lia.
Qed.

(** After [self._sigma[k] = v'] with [v'] the perturbed [self._sigma[k]],
    reading [self._sigma[k]] gives the perturbed matrix. *)
Lemma slab_update_perturb (d k : nat) (t : tensor3) :
  slab (update k (perturb d (slab t k)) t) k = perturb d (slab t k).
Proof.
  unfold slab. destruct (Nat.lt_ge_cases k (length t)) as [H|H].
  - now apply nth_update_same.
  - rewrite update_beyond by assumption.
    rewrite (nth_overflow t) by assumption. reflexivity.
Qed.

Lemma with_sigma_same (s : GMM) : with_sigma s (_sigma s) = s.
Proof. now destruct s. Qed.

Lemma update_slab_same (k : nat) (t : tensor3) : update k (slab t k) t = t.
Proof.
  unfold slab. revert k; induction t as [|x t IH]; intros [|k]; simpl; auto.
  now rewrite IH.
Qed.

Lemma update_update {A : Type} (k : nat) (v w : A) (l : list A) :
  update k w (update k v l) = update k w l.
Proof. revert k; induction l as [|x l IH]; intros [|k]; simpl; auto. now rewrite IH. Qed.

Lemma nth_map_lt {A B : Type} (f : A -> B) (l : list A) (n : nat) (d : B) (d' : A) :
  (n < length l)%nat -> nth n (map f l) d = f (nth n l d').
Proof.
  intro H. rewrite (nth_indep _ d (f d')) by (now rewrite length_map).
  apply map_nth.
Qed.

Lemma vget_tab (a : nat) (f : nat -> R) (i : nat) :
  (i < a)%nat -> vget (tabulate a f) i = f i.
Proof. intro H. unfold vget. now apply nth_tabulate. Qed.

Lemma mget_tab (a b : nat) (f : nat -> nat -> R) (i j : nat) :
  (i < a)%nat -> (j < b)%nat ->
  mget (tabulate a (fun i => tabulate b (fun j => f i j))) i j = f i j.
Proof.
  intros Hi Hj. unfold mget, row. rewrite nth_tabulate by assumption.
  now apply vget_tab.
Qed.

Lemma tget_tab (a b c : nat) (f : nat -> nat -> nat -> R) (k i j : nat) :
  (k < a)%nat -> (i < b)%nat -> (j < c)%nat ->
  tget (tabulate a (fun k => tabulate b (fun i => tabulate c (fun j => f k i j)))) k i j
  = f k i j.
Proof.
  intros Hk Hi Hj. unfold tget, slab. rewrite nth_tabulate by assumption.
  now apply mget_tab.
Qed.

Lemma qget_tab (a b c d : nat) (f : nat -> nat -> nat -> nat -> R) (n k i j : nat) :
  (n < a)%nat -> (k < b)%nat -> (i < c)%nat -> (j < d)%nat ->
  qget (tabulate a (fun n => tabulate b (fun k => tabulate c (fun i =>
          tabulate d (fun j => f n k i j))))) n k i j
  = f n k i j.
Proof.
  intros Hn Hk Hi Hj. unfold qget. rewrite nth_tabulate by assumption.
  now apply tget_tab.
Qed.

Lemma sigma_sum_shift (n : nat) (f : nat -> R) :
  sigma_sum (S n) f = f 0%nat + sigma_sum n (fun k => f (S k)).
Proof.
  induction n as [|n IH]; [simpl; lra|].
  change (sigma_sum (S (S n)) f) with (sigma_sum (S n) f + f (S n)).
  rewrite IH. simpl. lra.
Qed.

(** [np.sum(v)] is the sum of the entries of [v] by index. *)
Lemma Rsum_by_index (v : vec) : Rsum v = sigma_sum (length v) (vget v).
Proof.
  induction v as [|x v IH]; [reflexivity|].
  simpl length. rewrite sigma_sum_shift. simpl. rewrite IH. reflexivity.
Qed.

Lemma vget_N_m (g : matrix) (m : nat) : vget (m_N_m g) m = Rsum (row g m).
Proof.
  unfold vget, m_N_m, row. change 0 with (Rsum []) at 1. apply map_nth.
Qed.

(** ** The perturbation, entry by entry *)

Lemma vget_vec_map2_lt (f : R -> R -> R) (a b : vec) (k : nat) :
  (k < length a)%nat -> (k < length b)%nat ->
  vget (vec_map2 f a b) k = f (vget a k) (vget b k).
Proof.
  unfold vget.
  revert b k; induction a as [|x a IH]; intros [|y b] [|k] Ha Hb; simpl in *;
    try lia; auto.
  apply IH; lia.
Qed.

Lemma length_vec_map2_eq (f : R -> R -> R) (a b : vec) :
  length (vec_map2 f a b) = Nat.min (length a) (length b).
Proof.
  revert b; induction a as [|x a IH]; intros [|y b]; simpl; auto.
Qed.

Lemma length_mat_map2 (f : R -> R -> R) (a b : matrix) :
  length (mat_map2 f a b) = Nat.min (length a) (length b).
Proof.
  revert b; induction a as [|x a IH]; intros [|y b]; simpl; auto.
Qed.

Lemma row_mat_map2 (f : R -> R -> R) (a b : matrix) (i : nat) :
  (i < length a)%nat -> (i < length b)%nat ->
  row (mat_map2 f a b) i = vec_map2 f (row a i) (row b i).
Proof.
  unfold row.
  revert b i; induction a as [|x a IH]; intros [|y b] [|i] Ha Hb; simpl in *;
    try lia; auto.
  apply IH; lia.
Qed.

Lemma row_mat_scale (c : R) (a : matrix) (i : nat) :
  row (mat_scale c a) i = map (Rmult c) (row a i).
Proof.
  unfold row, mat_scale.
  change (@nil R) with (map (Rmult c) []) at 1. apply map_nth.
Qed.

Lemma identity_square (d : nat) : is_square d (identity d).
Proof.
  unfold is_square, identity. split; [apply length_tabulate|].
  intros i Hi. unfold row. rewrite nth_tabulate by assumption.
  apply length_tabulate.
Qed.

Lemma mget_identity (d i j : nat) :
  (i < d)%nat -> (j < d)%nat ->
  mget (identity d) i j = if Nat.eqb i j then 1 else 0.
Proof. intros Hi Hj. unfold identity. now rewrite mget_tab. Qed.

Lemma perturb_square (d : nat) (a : matrix) :
  is_square d a -> is_square d (perturb d a).
Proof.
  intros [Hlen Hrows]. destruct (identity_square d) as [Hil Hir].
  assert (Hs : length (mat_scale 0.05 (identity d)) = d)
    by (unfold mat_scale; now rewrite length_map).
  assert (Hm : length (mat_map2 Rmult (mat_scale 0.05 (identity d)) a) = d)
    by (rewrite length_mat_map2, Hs, Hlen; lia).
  unfold perturb. split.
  - rewrite length_mat_map2, Hlen, Hm. lia.
  - intros i Hi.
    rewrite row_mat_map2 by lia. rewrite row_mat_map2 by lia.
    rewrite row_mat_scale, !length_vec_map2_eq, length_map, Hir, Hrows by assumption.
    lia.
Qed.

Lemma mget_perturb (d : nat) (a : matrix) (i j : nat) :
  is_square d a -> (i < d)%nat -> (j < d)%nat ->
  mget (perturb d a) i j
  = if Nat.eqb i j then 1.05 * mget a i j else mget a i j.
Proof.
  intros [Hlen Hrows] Hi Hj. destruct (identity_square d) as [Hil Hir].
  assert (Hs : length (mat_scale 0.05 (identity d)) = d)
    by (unfold mat_scale; now rewrite length_map).
  assert (Hm : length (mat_map2 Rmult (mat_scale 0.05 (identity d)) a) = d)
    by (rewrite length_mat_map2, Hs, Hlen; lia).
  unfold perturb, mget.
  rewrite row_mat_map2 by lia. rewrite row_mat_map2 by lia.
  rewrite row_mat_scale.
  rewrite vget_vec_map2_lt;
    [| rewrite Hrows; lia
     | rewrite length_vec_map2_eq, length_map, Hir, Hrows by assumption; lia].
  rewrite vget_vec_map2_lt;
    [| rewrite length_map, Hir by assumption; lia | rewrite Hrows; lia].
  unfold vget at 2.
  rewrite (nth_map_lt _ _ j 0 0) by (rewrite Hir by assumption; lia).
  fold (vget (row (identity d) i) j). fold (mget (identity d) i j).
  rewrite mget_identity by assumption.
  fold (mget a i j). destruct (Nat.eqb i j); lra.
Qed.

Lemma perturb_iter_square (d k : nat) (a : matrix) :
  is_square d a -> is_square d (perturb_iter d k a).
Proof.
  revert a; induction k as [|k IH]; intros a Ha; simpl; [assumption|].
  apply IH. now apply perturb_square.
Qed.

Lemma mget_perturb_iter (d k : nat) (a : matrix) (i j : nat) :
  is_square d a -> (i < d)%nat -> (j < d)%nat ->
  mget (perturb_iter d k a) i j
  = (if Nat.eqb i j then 1.05 ^ k else 1) * mget a i j.
Proof.
  revert a; induction k as [|k IH]; intros a Ha Hi Hj; simpl.
  - destruct (Nat.eqb i j); lra.
  - rewrite IH by (try apply perturb_square; assumption).
    rewrite mget_perturb by assumption.
    destruct (Nat.eqb i j); lra.
Qed.

(** Two [d] x [d] arrays with the same entries are the same array. *)
Lemma square_ext (d : nat) (a b : matrix) :
  is_square d a -> is_square d b ->
  (forall i j, (i < d)%nat -> (j < d)%nat -> mget a i j = mget b i j) -> a = b.
Proof.
  intros [Hla Hra] [Hlb Hrb] H.
  apply (nth_ext a b [] []); [congruence|].
  intros i Hi. rewrite Hla in Hi.
  fold (row a i) (row b i).
  apply (nth_ext (row a i) (row b i) 0 0).
  - now rewrite Hra, Hrb.
  - intros j Hj. rewrite Hra in Hj by assumption. exact (H i j Hi Hj).
Qed.

(** A covariance whose diagonal is all 0 is left as it is by the
    perturbation: the entries off the diagonal get [0.05 * 0 * x] added, the
    entries on it are 0 and get [0.05 * 1 * 0] added. *)
Lemma perturb_zero_diagonal (d : nat) (cov : matrix) :
  is_square d cov -> (forall i, (i < d)%nat -> mget cov i i = 0) ->
  perturb d cov = cov.
Proof.
  intros Hsq Hz. apply (square_ext d); [now apply perturb_square | assumption |].
  intros i j Hi Hj. rewrite mget_perturb by assumption.
  destruct (Nat.eqb i j) eqn:E; [|reflexivity].
  apply Nat.eqb_eq in E. subst j. rewrite Hz by assumption. lra.
Qed.

(** ** The positive-definiteness repair *)

Section Repair.

Variable eigvals : matrix -> list R.

Lemma repair_diverges (d : nat) (cov : matrix) :
  (forall k, _is_pos_def eigvals (perturb_iter d k cov) = false) ->
  forall fuel, repair eigvals fuel d cov = OutOfFuel.
Proof.
  intros H fuel. revert cov H.
  induction fuel as [|f IH]; intros cov H; simpl.
  - pose proof (H 0%nat) as H0. simpl in H0. now rewrite H0.
  - pose proof (H 0%nat) as H0. simpl in H0. rewrite H0. apply IH. intro k. apply (H (S k)).
Qed.

Lemma repair_ok_iff (fuel d : nat) (cov c : matrix) :
  repair eigvals fuel d cov = Ok c <->
  exists k, (k <= fuel)%nat /\ c = perturb_iter d k cov /\ _is_pos_def eigvals c = true /\
            forall j, (j < k)%nat -> _is_pos_def eigvals (perturb_iter d j cov) = false.
Proof.
  revert cov; induction fuel as [|f IH]; intro cov; simpl.
  - destruct (_is_pos_def eigvals cov) eqn:E; split.
    + intro H; inversion H; subst. exists 0%nat. repeat split; auto. intros; lia.
    + intros (k & Hk & -> & _ & _). assert (k = 0)%nat as -> by lia. reflexivity.
    + discriminate.
    + intros (k & Hk & -> & Hp & _). assert (k = 0)%nat as -> by lia.
      simpl in Hp. congruence.
  - destruct (_is_pos_def eigvals cov) eqn:E; split.
    + intro H; inversion H; subst. exists 0%nat. repeat split; auto; try lia.
    + intros (k & Hk & -> & Hp & Hj). destruct k as [|k]; [reflexivity|].
      specialize (Hj 0%nat ltac:(lia)). simpl in Hj. congruence.
    + intro H. apply IH in H. destruct H as (k & Hk & -> & Hp & Hj).
      exists (S k). repeat split; auto; try lia.
      intros [|j] Hlt; [exact E|]. apply Hj. lia.
    + intros (k & Hk & -> & Hp & Hj). destruct k as [|k].
      * simpl in Hp. congruence.
      * apply IH. exists k. repeat split; auto; try lia.
        intros j Hlt. apply (Hj (S j)). lia.
Qed.

(** The loop on [self._sigma[k]] runs as the loop on a local matrix does,
    and writes every perturbed matrix back. *)
Lemma repair_sigma_run (fuel k : nat) (s : GMM) :
  exists j, (j <= fuel)%nat /\
    repair_sigma eigvals fuel k s
    = (forget (repair eigvals fuel (_d s) (slab (_sigma s) k)),
       with_sigma s (update k (perturb_iter (_d s) j (slab (_sigma s) k)) (_sigma s))).
Proof.
  revert s; induction fuel as [|f IH]; intro s.
  - exists 0%nat. split; [lia|]. simpl. unfold bind, get.
    rewrite update_slab_same, with_sigma_same.
    destruct (_is_pos_def eigvals (slab (_sigma s) k)); reflexivity.
  - simpl. unfold bind at 1. unfold get.
    destruct (_is_pos_def eigvals (slab (_sigma s) k)) eqn:E.
    + exists 0%nat. split; [lia|]. simpl.
      now rewrite update_slab_same, with_sigma_same.
    + unfold bind, set_sigma.
      set (s1 := mkGMM _ _ _ _ _ _ _).
      destruct (IH s1) as (j & Hj & Hrun). exists (S j). split; [lia|].
      rewrite Hrun. unfold s1; simpl.
      rewrite slab_update_perturb, update_update. reflexivity.
Qed.

Lemma repair_sigma_eq (fuel k : nat) (s : GMM) :
  repair_sigma eigvals fuel k s
  = if _is_pos_def eigvals (slab (_sigma s) k) then (Ok tt, s)
    else match fuel with
         | O => (OutOfFuel, s)
         | S f =>
             repair_sigma eigvals f k
               (with_sigma s (update k (perturb (_d s) (slab (_sigma s) k)) (_sigma s)))
         end.
Proof.
  destruct fuel as [|f]; simpl; unfold bind, get;
    destruct (_is_pos_def eigvals (slab (_sigma s) k)); reflexivity.
Qed.

(** The loop on [self._sigma[k]] leaves in [self._sigma[k]] the matrix that
    the loop on a local copy returns, and nothing else of [self] changed. *)
Lemma repair_sigma_keeps (fuel k : nat) (s : GMM) (c : matrix) :
  repair eigvals fuel (_d s) (slab (_sigma s) k) = Ok c ->
  repair_sigma eigvals fuel k s = (Ok tt, with_sigma s (update k c (_sigma s))).
Proof.
  revert s; induction fuel as [|f IH]; intro s; rewrite repair_sigma_eq;
    cbn [repair]; destruct (_is_pos_def eigvals (slab (_sigma s) k)) eqn:E;
    try discriminate;
    try (intro H; inversion H; subst c;
         now rewrite update_slab_same, with_sigma_same).
  intro H. set (s1 := with_sigma s _).
  assert (Hslab : slab (_sigma s1) k = perturb (_d s) (slab (_sigma s) k))
    by (unfold s1; simpl; apply slab_update_perturb).
  rewrite (IH s1) by (rewrite Hslab; exact H).
  unfold s1, with_sigma; simpl. now rewrite update_update.
Qed.

(** A covariance that fails the check and that the perturbation leaves as
    it is keeps both loops running. *)
Lemma repair_unchanged (d : nat) (cov : matrix) :
  perturb d cov = cov -> _is_pos_def eigvals cov = false ->
  forall fuel, repair eigvals fuel d cov = OutOfFuel.
Proof.
  intros Hp Hc fuel. induction fuel as [|f IH]; cbn [repair]; rewrite Hc;
    [reflexivity | now rewrite Hp].
Qed.

Lemma repair_sigma_unchanged (k : nat) (s : GMM) :
  perturb (_d s) (slab (_sigma s) k) = slab (_sigma s) k ->
  _is_pos_def eigvals (slab (_sigma s) k) = false ->
  forall fuel, repair_sigma eigvals fuel k s = (OutOfFuel, s).
Proof.
  intros Hp Hc fuel. induction fuel as [|f IH]; rewrite repair_sigma_eq, Hc;
    [reflexivity|].
  now rewrite Hp, update_slab_same, with_sigma_same.
Qed.

(** C1 (as amended): the repair has no cap on the number of perturbations.
    The loop returns a matrix exactly when some number [k] of perturbations,
    within the fuel, first gives a matrix whose eigenvalues all exceed 0.02,
    and it returns that matrix; the loop of the M-step then leaves that
    matrix in [self._sigma[k]], every other covariance and field of the
    model as it was.  On a [d] x [d] covariance whose diagonal is all 0 and
    that fails the check, the perturbation changes no entry, so that both
    loops are still running whatever the fuel, the model as it was: no
    error ends them. *)
Theorem repair_has_no_cap (fuel d : nat) (cov : matrix) :
  (forall c, repair eigvals fuel d cov = Ok c <->
     exists k, (k <= fuel)%nat /\ c = perturb_iter d k cov /\
       _is_pos_def eigvals c = true /\
       forall j, (j < k)%nat -> _is_pos_def eigvals (perturb_iter d j cov) = false) /\
  (forall s k c,
     slab (_sigma s) k = cov -> _d s = d -> (k < length (_sigma s))%nat ->
     repair eigvals fuel d cov = Ok c ->
     repair_sigma eigvals fuel k s = (Ok tt, with_sigma s (update k c (_sigma s))) /\
     slab (update k c (_sigma s)) k = c /\
     forall k', k' <> k -> slab (update k c (_sigma s)) k' = slab (_sigma s) k') /\
  (is_square d cov -> (forall i, (i < d)%nat -> mget cov i i = 0) ->
   _is_pos_def eigvals cov = false ->
   perturb d cov = cov /\
   (forall fuel', repair eigvals fuel' d cov = OutOfFuel) /\
   (forall s k fuel', slab (_sigma s) k = cov -> _d s = d ->
      repair_sigma eigvals fuel' k s = (OutOfFuel, s))).
Proof.
  split; [|split].
  - intro c. apply repair_ok_iff.
  - intros s k c <- <- Hk Hrun. split; [now apply repair_sigma_keeps|].
    split; [now apply nth_update_same | intros k' Hne; now apply nth_update_other].
  - intros Hsq Hz Hc.
    pose proof (perturb_zero_diagonal d cov Hsq Hz) as Hp.
    split; [exact Hp|]. split; [now apply repair_unchanged|].
    intros s k fuel' Hs Hd. subst cov d. now apply repair_sigma_unchanged.
Qed.

End Repair.

(** ** One EM iteration *)

Section Iteration.

Variable eigvals : matrix -> list R.
Variable mvn_pdf : vec -> vec -> matrix -> R.

Lemma repair_sigma_post (fuel k : nat) (s : GMM) :
  (exists t, snd (repair_sigma eigvals fuel k s) = with_sigma s t /\
     forall k', k' <> k -> slab t k' = slab (_sigma s) k') /\
  (fst (repair_sigma eigvals fuel k s) = Ok tt ->
     _is_pos_def eigvals (slab (_sigma (snd (repair_sigma eigvals fuel k s))) k) = true) /\
  (forall e, fst (repair_sigma eigvals fuel k s) <> Raise e) /\
  (_is_pos_def eigvals (slab (_sigma s) k) = true ->
     repair_sigma eigvals fuel k s = (Ok tt, s)).
Proof.
  revert s; induction fuel as [|f IH]; intro s; rewrite repair_sigma_eq;
    destruct (_is_pos_def eigvals (slab (_sigma s) k)) eqn:E; simpl;
    try (split; [|split; [|split]]; auto; try discriminate;
         exists (_sigma s); split; [now rewrite with_sigma_same | auto]).
  set (s1 := with_sigma s _).
  destruct (IH s1) as ((t & Ht & Hother) & Hok & Hraise & _).
  split; [|split; [|split]]; auto; try discriminate.
  exists t. split; [rewrite Ht; reflexivity|].
  intros k' Hk'. rewrite Hother by assumption.
  unfold slab, s1; simpl. now apply nth_update_other.
Qed.

Lemma repairs_post (fuel : nat) (ks : list nat) (s : GMM) :
  (exists t, snd (for_each ks (repair_sigma eigvals fuel) s) = with_sigma s t) /\
  (fst (for_each ks (repair_sigma eigvals fuel) s) = Ok tt ->
     forall k, In k ks ->
       _is_pos_def eigvals
         (slab (_sigma (snd (for_each ks (repair_sigma eigvals fuel) s))) k) = true) /\
  (forall e, fst (for_each ks (repair_sigma eigvals fuel) s) <> Raise e) /\
  (forall k, _is_pos_def eigvals (slab (_sigma s) k) = true ->
     _is_pos_def eigvals
       (slab (_sigma (snd (for_each ks (repair_sigma eigvals fuel) s))) k) = true).
Proof.
  revert s; induction ks as [|k0 ks IH]; intro s.
  - simpl. split; [exists (_sigma s); now rewrite with_sigma_same|].
    split; [intros _ k []|]. split; [discriminate | auto].
  - simpl. unfold bind.
    destruct (repair_sigma_post fuel k0 s) as ((t & Ht & Hother) & Hok & Hraise & Hsame).
    assert (Hkeep : forall k, _is_pos_def eigvals (slab (_sigma s) k) = true ->
              _is_pos_def eigvals
                (slab (_sigma (snd (repair_sigma eigvals fuel k0 s))) k) = true).
    { intros k Hk. destruct (Nat.eq_dec k k0) as [->|Hne].
      - now rewrite (Hsame Hk).
      - rewrite Ht. simpl. now rewrite Hother. }
    destruct (repair_sigma eigvals fuel k0 s) as [[[]|e|] s1] eqn:Erun; simpl in *.
    + destruct (IH s1) as ((t' & Ht') & Hok' & Hraise' & Hkeep').
      split; [|split; [|split]]; auto.
      * exists t'. rewrite Ht'. subst s1. reflexivity.
      * intros Hfst k [<-|Hin]; [apply Hkeep'; now apply Hok | now apply Hok'].
    + exfalso. now apply (Hraise e).
    + split; [|split; [|split]]; try discriminate; auto. now exists t.
Qed.

Lemma em_update_run (data : matrix) (s : GMM) :
  em_update mvn_pdf data s
  = (Ok (e_sum_m_pi_mixture mvn_pdf s data), after_update mvn_pdf s data).
Proof. reflexivity. Qed.

Lemma em_run (fuel : nat) (data : matrix) (tol : R) (s : GMM) :
  _expectation_maximization eigvals mvn_pdf fuel data tol s
  = match for_each (seq 0 (_m s)) (repair_sigma eigvals fuel)
            (after_update mvn_pdf s data) with
    | (Ok _, s2) =>
        (Ok tt, with_post s2 (Rsum (map ln (e_sum_m_pi_mixture mvn_pdf s data))))
    | (Raise e, s2) => (Raise e, s2)
    | (OutOfFuel, s2) => (OutOfFuel, s2)
    end.
Proof.
  unfold _expectation_maximization, bind. rewrite em_update_run. unfold get.
  change (_m (after_update mvn_pdf s data)) with (_m s).
  destruct (for_each _ _ _) as [[[]|e|] s2]; reflexivity.
Qed.

(** What an iteration leaves in [self]: everything but the covariances and
    the log-posterior is as the E-step and the M-step assigned it. *)
Lemma em_fields (fuel : nat) (data : matrix) (tol : R) (s : GMM) :
  let s' := snd (_expectation_maximization eigvals mvn_pdf fuel data tol s) in
  let g := e_gamma mvn_pdf s data in
  _m s' = _m s /\ _d s' = _d s /\ _pi s' = m_pi g data /\
  _mu s' = m_mu g data /\ _gamma s' = Some g.
Proof.
  rewrite em_run.
  destruct (repairs_post fuel (seq 0 (_m s)) (after_update mvn_pdf s data))
    as ((t & Ht) & _).
  destruct (for_each _ _ _) as [[[]|e'|] s2]; simpl in *; subst s2;
    (split; [|split; [|split; [|split]]]); reflexivity.
Qed.

End Iteration.

(** ** The loop of [fit] *)

Section Fit.

Variable eigvals : matrix -> list R.
Variable mvn_pdf : vec -> vec -> matrix -> R.
Variable kmeans : matrix -> nat -> matrix.

Lemma fit_while_eq (fuel inner : nat) (data : matrix) (max_steps : Z) (tol : R)
    (km : bool) (step : Z) (post_prev : R) (s : GMM) :
  fit_while eigvals mvn_pdf kmeans fuel inner data max_steps tol km step post_prev s
  = if Rgtb (Rabs (_post s - post_prev) / INR (shape0 data)) tol
       && (step <? max_steps)%Z
    then match fuel with
         | O => (OutOfFuel, s)
         | S f =>
             let s1 := if (step =? 0)%Z && km
                       then with_mu s (kmeans data (_m s)) else s in
             match _expectation_maximization eigvals mvn_pdf inner data tol s1 with
             | (Ok _, s2) =>
                 fit_while eigvals mvn_pdf kmeans f inner data max_steps tol km
                   (step + 1)%Z (_post s1) s2
             | (Raise e, s2) => (Raise e, s2)
             | (OutOfFuel, s2) => (OutOfFuel, s2)
             end
         end
    else (Ok step, s).
Proof.
  destruct fuel as [|f]; simpl; unfold bind, get;
    destruct (Rgtb _ tol && (step <? max_steps)%Z); try reflexivity.
  destruct ((step =? 0)%Z && km); simpl; reflexivity.
Qed.

(** Zero iterations as soon as [step < max_steps] fails on entry. *)
Lemma fit_no_iteration (fuel : nat) (data : matrix) (max_steps : Z) (tol : R)
    (km : bool) (s : GMM) :
  (max_steps <= 0)%Z ->
  fit eigvals mvn_pdf kmeans fuel data max_steps tol km s = (Ok 0%Z, s).
Proof.
  intro H. unfold fit. rewrite fit_while_eq.
  replace (0 <? max_steps)%Z with false by (symmetry; apply Z.ltb_ge; lia).
  now rewrite andb_false_r.
Qed.

Lemma fit_while_steps (fuel inner : nat) (data : matrix) (max_steps : Z) (tol : R)
    (km : bool) (step : Z) (post_prev : R) (s : GMM) (n : Z) :
  fst (fit_while eigvals mvn_pdf kmeans fuel inner data max_steps tol km step post_prev s)
  = Ok n ->
  (step <= n)%Z /\ (n <= Z.max step max_steps)%Z.
Proof.
  revert step post_prev s; induction fuel as [|f IH]; intros step post_prev s;
    rewrite fit_while_eq;
    destruct (Rgtb _ tol) eqn:Ec; destruct (step <? max_steps)%Z eqn:Es; simpl;
    try discriminate; try (intro H; inversion H; subst; lia).
  apply Z.ltb_lt in Es.
  destruct (_expectation_maximization _ _ _ _ _ _) as [[[]|e|] s2]; simpl;
    try discriminate.
  intro H. apply IH in H. lia.
Qed.

Lemma fit_while_enters (fuel inner : nat) (data : matrix) (max_steps : Z) (tol : R)
    (km : bool) (step : Z) (post_prev : R) (s : GMM) (n : Z) :
  Rabs (_post s - post_prev) / INR (shape0 data) > tol ->
  (step < max_steps)%Z ->
  fst (fit_while eigvals mvn_pdf kmeans fuel inner data max_steps tol km step post_prev s)
  = Ok n ->
  (step + 1 <= n)%Z.
Proof.
  intros Hc Hs. rewrite fit_while_eq, (Rgtb_true _ _ Hc).
  replace (step <? max_steps)%Z with true by (symmetry; now apply Z.ltb_lt).
  destruct fuel as [|f]; simpl; try discriminate.
  destruct (_expectation_maximization _ _ _ _ _ _) as [[[]|e|] s2]; simpl;
    try discriminate.
  intro H. apply fit_while_steps in H. lia.
Qed.

(** The loop ends within the cap: when every iteration returns, fuel
    [max_steps - step] is enough for the loop to return. *)
Lemma fit_while_terminates (fuel inner : nat) (data : matrix) (max_steps : Z)
    (tol : R) (km : bool) (step : Z) (post_prev : R) (s : GMM) :
  (forall s0, exists s1,
     _expectation_maximization eigvals mvn_pdf inner data tol s0 = (Ok tt, s1)) ->
  (Z.to_nat (max_steps - step) <= fuel)%nat ->
  exists n s',
    fit_while eigvals mvn_pdf kmeans fuel inner data max_steps tol km step post_prev s
    = (Ok n, s').
Proof.
  intro Hem. revert step post_prev s.
  induction fuel as [|f IH]; intros step post_prev s Hfuel; rewrite fit_while_eq;
    destruct (Rgtb _ tol); destruct (step <? max_steps)%Z eqn:Es; simpl;
    try (eexists; eexists; reflexivity); apply Z.ltb_lt in Es; try lia.
  match goal with
  | |- context [_expectation_maximization ?a ?b ?c ?d ?t ?x] =>
      destruct (Hem x) as [s1 ->]
  end.
  apply IH. lia.
Qed.

(** A model whose log-posterior lies between [N] and [(2*tol+1)*N] fails
    the first comparison of the loop. *)
Lemma fit_skips_in_band (fuel : nat) (data : matrix) (max_steps : Z) (tol : R)
    (km : bool) (s : GMM) :
  (0 < shape0 data)%nat ->
  INR (shape0 data) <= _post s <= (2 * tol + 1) * INR (shape0 data) ->
  fit eigvals mvn_pdf kmeans fuel data max_steps tol km s = (Ok 0%Z, s).
Proof.
  intros HN [Hlo Hhi]. unfold fit. rewrite fit_while_eq.
  assert (0 < INR (shape0 data)) by (apply lt_0_INR; assumption).
  rewrite Rgtb_false; [reflexivity|].
  apply (Rmult_le_reg_r (INR (shape0 data))); [assumption|].
  unfold Rdiv. rewrite Rmult_assoc, Rinv_l, Rmult_1_r by lra.
  apply Rabs_le. split; lra.
Qed.

(** On a model whose log-posterior is 0, as a new model's is, the seed
    [(tol + 1) * N] makes the first comparison succeed. *)
Lemma fit_fresh_iterates (fuel : nat) (data : matrix) (max_steps : Z) (tol : R)
    (km : bool) (s : GMM) (n : Z) :
  _post s = 0 ->
  (0 < shape0 data)%nat ->
  (1 <= max_steps)%Z ->
  fst (fit eigvals mvn_pdf kmeans fuel data max_steps tol km s) = Ok n ->
  (1 <= n <= max_steps)%Z.
Proof.
  intros Hp HN Hmax Hrun. unfold fit in Hrun.
  assert (0 < INR (shape0 data)) by (apply lt_0_INR; assumption).
  split.
  - apply fit_while_enters in Hrun; [lia | | lia].
    rewrite Hp.
    replace (0 - (tol + 1.0) * INR (shape0 data))
      with (- ((tol + 1) * INR (shape0 data))) by lra.
    rewrite Rabs_Ropp, Rabs_mult, (Rabs_right (INR _)) by lra.
    unfold Rdiv. rewrite Rmult_assoc, Rinv_r, Rmult_1_r by lra.
    unfold Rabs. destruct (Rcase_abs (tol + 1)); lra.
  - apply fit_while_steps in Hrun. lia.
Qed.

(** C10: [fit] with [max_steps <= 0] returns without an error and leaves
    every field of the model as it was; the body of the loop is not run
    (the count of iterations returned is 0). *)
Theorem fit_nonpositive_max_steps_is_identity (fuel : nat) (data : matrix)
    (max_steps : Z) (tol : R) (km : bool) (s : GMM) :
  (max_steps <= 0)%Z ->
  fit eigvals mvn_pdf kmeans fuel data max_steps tol km s = (Ok 0%Z, s).
Proof. apply fit_no_iteration. Qed.

(** A loop that returns before the cap has failed its first comparison,
    against [post_prev] at entry or against the log-posterior before its
    last iteration. *)
Lemma fit_while_early_stop (fuel inner : nat) (data : matrix) (max_steps : Z)
    (tol : R) (km : bool) (step : Z) (post_prev : R) (s s' : GMM) (n : Z) :
  fit_while eigvals mvn_pdf kmeans fuel inner data max_steps tol km step post_prev s
  = (Ok n, s') ->
  (n < max_steps)%Z ->
  (n = step /\ s' = s /\
   Rabs (_post s - post_prev) / INR (shape0 data) <= tol) \/
  ((step < n)%Z /\
   exists s0,
     _expectation_maximization eigvals mvn_pdf inner data tol s0 = (Ok tt, s') /\
     Rabs (_post s' - _post s0) / INR (shape0 data) <= tol).
Proof.
  revert step post_prev s; induction fuel as [|f IH]; intros step post_prev s;
    rewrite fit_while_eq;
    destruct (Rgtb _ tol) eqn:Ec; destruct (step <? max_steps)%Z eqn:Es; simpl;
    try discriminate;
    try (intros H Hn; inversion H; subst;
         first [ apply Z.ltb_ge in Es; lia
               | left; split; [reflexivity|]; split; [reflexivity|];
                 apply Rnot_gt_le; intro Hgt;
                 apply (Rgtb_true _ _) in Hgt; congruence ]).
  set (s1 := if (step =? 0)%Z && km then with_mu s (kmeans data (_m s)) else s).
  destruct (_expectation_maximization eigvals mvn_pdf inner data tol s1)
    as [[[]|e|] s2] eqn:Erun; try discriminate.
  intros H Hn. destruct (IH _ _ _ H Hn) as [(-> & -> & Hle) | (Hlt & s0 & Hs0 & Hle)].
  - right. split; [lia|]. exists s1. split; assumption.
  - right. split; [lia|]. exists s0. split; assumption.
Qed.

(** [fit] returns after no iteration exactly when the first test of its
    loop fails; the test reads the number of rows of the data and nothing
    else of it. *)
Lemma fit_zero_iterations_iff (fuel : nat) (data : matrix) (max_steps : Z) (tol : R)
    (km : bool) (s : GMM) :
  fit eigvals mvn_pdf kmeans fuel data max_steps tol km s = (Ok 0%Z, s) <->
  (max_steps < 1)%Z \/
  Rabs (_post s - (tol + 1.0) * INR (shape0 data)) / INR (shape0 data) <= tol.
Proof.
  split.
  - intro H. destruct (Z_lt_dec max_steps 1) as [Hm|Hm]; [now left | right].
    apply Rnot_gt_le. intro Hgt.
    pose proof (fit_while_enters fuel fuel data max_steps tol km 0
                  ((tol + 1.0) * INR (shape0 data)) s 0 Hgt ltac:(lia)) as He.
    unfold fit in H. rewrite H in He. specialize (He eq_refl). lia.
  - intros [Hm|Hle]; [apply fit_no_iteration; lia|].
    unfold fit. rewrite fit_while_eq, Rgtb_false by assumption. reflexivity.
Qed.

Lemma Rabs_quotient_nonpos (x c t : R) :
  0 < c -> Rabs x / c <= t -> t <= 0 -> t = 0 /\ x = 0.
Proof.
  intros Hc Hle Ht.
  assert (H0 : 0 <= Rabs x / c)
    by (apply Rle_mult_inv_pos; [apply Rabs_pos | assumption]).
  split; [lra|].
  destruct (Req_dec x 0) as [|Hne]; [assumption|].
  apply Rabs_pos_lt in Hne.
  assert (0 < Rabs x / c) by now apply Rdiv_lt_0_compat.
  lra.
Qed.

(** A tolerance [<= 0] is used in the comparison as it is given: the loop
    then stops before the cap only on a log-posterior that is exactly
    unchanged, and never when the tolerance is negative. *)
Lemma fit_nonpositive_tolerance (fuel : nat) (data : matrix) (max_steps : Z)
    (tol : R) (km : bool) (s s' : GMM) (n : Z) :
  tol <= 0 -> (0 < shape0 data)%nat ->
  fit eigvals mvn_pdf kmeans fuel data max_steps tol km s = (Ok n, s') ->
  (n < max_steps)%Z ->
  tol = 0 /\
  ((n = 0%Z /\ s' = s /\ _post s = INR (shape0 data)) \/
   ((0 < n)%Z /\
    exists s0,
      _expectation_maximization eigvals mvn_pdf fuel data tol s0 = (Ok tt, s') /\
      _post s' = _post s0)).
Proof.
  intros Ht HN Hrun Hn.
  assert (HNpos : 0 < INR (shape0 data)) by now apply lt_0_INR.
  unfold fit in Hrun.
  destruct (fit_while_early_stop _ _ _ _ _ _ _ _ _ _ _ Hrun Hn)
    as [(-> & -> & Hle) | (Hlt & s0 & Hs0 & Hle)];
    destruct (Rabs_quotient_nonpos _ _ _ HNpos Hle Ht) as [Ht0 Hx].
  - split; [assumption|]. left. split; [reflexivity|]. split; [reflexivity|].
    subst tol. lra.
  - split; [assumption|]. right. split; [assumption|].
    exists s0. split; [assumption | lra].
Qed.

(** The arrays of a model just built, for every mixture count and
    dimensionality. *)
Lemma new_model_shapes (m d : nat) (randn : matrix) :
  length (_pi (new_model m d randn)) = m /\
  length (_sigma (new_model m d randn)) = m /\
  (forall k, (k < m)%nat -> is_square d (slab (_sigma (new_model m d randn)) k)) /\
  (d = 0%nat -> forall k, slab (_sigma (new_model m d randn)) k = []).
Proof.
  unfold new_model; simpl.
  split; [now rewrite length_map, repeat_length|].
  split; [apply repeat_length|]. split.
  - intros k Hk. unfold slab. rewrite nth_repeat_lt by assumption.
    apply identity_square.
  - intros -> k. unfold slab.
    destruct (Nat.lt_ge_cases k m) as [Hk|Hk].
    + now rewrite nth_repeat_lt.
    + apply nth_overflow. now rewrite repeat_length.
Qed.

(** C4 (as amended): neither construction nor [fit] checks an argument.
    Construction returns a model for every mixture count and
    dimensionality, 0 included: it has as many weights and covariances as
    mixtures, none for 0 mixtures, and its covariances are [D] x [D], empty
    for [D = 0].  On data with at least one row, whatever their column
    count, [fit] returns after no iteration, the model as it was, whenever
    [max_steps < 1] or the first comparison
    [|logPosterior - (tol + 1) * N| / N > tol] fails, and, for a tolerance
    of at most 10^6, only then.  A tolerance [<= 0]
    is compared as it is given: with at least one mixture, [fit] with such
    a tolerance returns before [max_steps] iterations only when the
    tolerance is 0 and the log-posterior is exactly unchanged, by its last
    iteration or at entry against the seed [N]. *)
Theorem no_argument_is_validated :
  (forall m d randn, exists s,
     __init__ m d randn = Ok s /\ _m s = m /\ _d s = d /\
     length (_pi s) = m /\ length (_sigma s) = m /\
     (forall k, (k < m)%nat -> is_square d (slab (_sigma s) k)) /\
     (d = 0%nat -> forall k, slab (_sigma s) k = [])) /\
  (forall fuel data max_steps tol km s,
     (0 < shape0 data)%nat ->
     ((max_steps < 1)%Z \/
      Rabs (_post s - (tol + 1.0) * INR (shape0 data)) / INR (shape0 data) <= tol ->
      fit eigvals mvn_pdf kmeans fuel data max_steps tol km s = (Ok 0%Z, s)) /\
     (tol <= 1000000 ->
      fit eigvals mvn_pdf kmeans fuel data max_steps tol km s = (Ok 0%Z, s) ->
      (max_steps < 1)%Z \/
      Rabs (_post s - (tol + 1.0) * INR (shape0 data)) / INR (shape0 data) <= tol)) /\
  (forall fuel data max_steps tol km s s' n,
     tol <= 0 -> (0 < shape0 data)%nat -> (0 < _m s)%nat ->
     fit eigvals mvn_pdf kmeans fuel data max_steps tol km s = (Ok n, s') ->
     (n < max_steps)%Z ->
     tol = 0 /\
     ((n = 0%Z /\ s' = s /\ _post s = INR (shape0 data)) \/
      ((0 < n)%Z /\
       exists s0,
         _expectation_maximization eigvals mvn_pdf fuel data tol s0 = (Ok tt, s') /\
         _post s' = _post s0))).
Proof.
  split; [|split].
  - intros m d randn. exists (new_model m d randn).
    destruct (new_model_shapes m d randn) as (Hpi & Hs & Hsq & Hd0).
    split; [reflexivity|]. split; [reflexivity|]. split; [reflexivity|].
    split; [exact Hpi|]. split; [exact Hs|]. split; [exact Hsq | exact Hd0].
  - intros fuel data max_steps tol km s _.
    split; [|intros _]; apply fit_zero_iterations_iff.
  - intros fuel data max_steps tol km s s' n Ht HN _ Hrun Hn.
    now apply (fit_nonpositive_tolerance fuel data max_steps tol km s s' n).
Qed.

End Fit.

(** ** The E-step and the M-step *)

Section Steps.

Variable eigvals : matrix -> list R.
Variable mvn_pdf : vec -> vec -> matrix -> R.

Lemma mget_e_pi_mixture (s : GMM) (data : matrix) (m n : nat) :
  (m < _m s)%nat -> (n < shape0 data)%nat ->
  mget (e_pi_mixture mvn_pdf s data) m n = weighted_density mvn_pdf s data m n.
Proof.
  intros Hm Hn. unfold e_pi_mixture. rewrite mget_tab by assumption.
  unfold weighted_density, e_mixture, mget, row, vget.
  rewrite nth_tabulate by assumption.
  rewrite (nth_map_lt _ data n 0 []) by assumption. reflexivity.
Qed.

Lemma vget_e_sum (s : GMM) (data : matrix) (n : nat) :
  (n < shape0 data)%nat ->
  vget (e_sum_m_pi_mixture mvn_pdf s data) n = mixture_density mvn_pdf s data n.
Proof.
  intro Hn. unfold e_sum_m_pi_mixture. rewrite vget_tab by assumption.
  rewrite Rsum_tabulate. apply sigma_sum_ext. intros m Hm.
  now apply mget_e_pi_mixture.
Qed.

Lemma mget_e_gamma (s : GMM) (data : matrix) (m n : nat) :
  (m < _m s)%nat -> (n < shape0 data)%nat ->
  mget (e_gamma mvn_pdf s data) m n
  = weighted_density mvn_pdf s data m n / mixture_density mvn_pdf s data n.
Proof.
  intros Hm Hn. unfold e_gamma. rewrite mget_tab by assumption.
  now rewrite mget_e_pi_mixture, vget_e_sum.
Qed.

Lemma shape_e_gamma (s : GMM) (data : matrix) :
  shape0 (e_gamma mvn_pdf s data) = _m s /\
  forall m, (m < _m s)%nat -> length (row (e_gamma mvn_pdf s data) m) = shape0 data.
Proof.
  unfold shape0, e_gamma. split; [apply length_tabulate|].
  intros m Hm. unfold row. rewrite nth_tabulate by assumption.
  apply length_tabulate.
Qed.

(** [N_m] of the responsibilities of the E-step, by index. *)
Lemma N_m_e_gamma (s : GMM) (data : matrix) (m : nat) :
  (m < _m s)%nat ->
  vget (m_N_m (e_gamma mvn_pdf s data)) m
  = sigma_sum (shape0 data) (fun n => mget (e_gamma mvn_pdf s data) m n).
Proof.
  intro Hm. rewrite vget_N_m, Rsum_by_index.
  destruct (shape_e_gamma s data) as [_ Hlen]. now rewrite Hlen.
Qed.

Lemma vget_m_pi (g data : matrix) (m : nat) :
  (m < shape0 g)%nat ->
  vget (m_pi g data) m = vget (m_N_m g) m / INR (shape0 data).
Proof.
  intro Hm. unfold vget at 1. unfold m_pi.
  rewrite (nth_map_lt _ _ m 0 0) by (unfold m_N_m; now rewrite length_map).
  reflexivity.
Qed.

Lemma mget_m_mu (g data : matrix) (m j : nat) :
  (m < shape0 g)%nat -> (j < shape1 data)%nat ->
  mget (m_mu g data) m j
  = sigma_sum (shape0 data) (fun n => mget g m n * mget data n j) / vget (m_N_m g) m.
Proof.
  intros Hm Hj. unfold m_mu. rewrite mget_tab by assumption.
  now rewrite Rsum_tabulate.
Qed.

Lemma qget_m_x_m_mu (mu data : matrix) (n m i : nat) :
  (n < shape0 data)%nat -> (m < shape0 mu)%nat -> (i < shape1 data)%nat ->
  qget (m_x_m_mu mu data) n m i 0 = mget data n i - mget mu m i.
Proof.
  intros Hn Hm Hi. unfold m_x_m_mu, qget, tget, slab, mget at 1, row at 1.
  now rewrite !nth_tabulate by assumption.
Qed.

Lemma qget_m_xi (mu data : matrix) (n m i j : nat) :
  (n < shape0 data)%nat -> (m < shape0 mu)%nat ->
  (i < shape1 data)%nat -> (j < shape1 data)%nat ->
  qget (m_xi mu data) n m i j
  = (mget data n i - mget mu m i) * (mget data n j - mget mu m j).
Proof.
  intros Hn Hm Hi Hj. unfold m_xi. rewrite qget_tab by assumption.
  rewrite Rsum_tabulate. simpl sigma_sum.
  unfold m_x_m_mu_T. rewrite qget_tab by (assumption || lia).
  rewrite !qget_m_x_m_mu by assumption. lra.
Qed.

Lemma tget_m_sigma (g mu data : matrix) (m i j : nat) :
  (m < shape0 mu)%nat -> (i < shape1 data)%nat -> (j < shape1 data)%nat ->
  tget (m_sigma g mu data) m i j
  = sigma_sum (shape0 data) (fun n =>
      mget g m n * ((mget data n i - mget mu m i) * (mget data n j - mget mu m j)))
    / vget (m_N_m g) m.
Proof.
  intros Hm Hi Hj. unfold m_sigma. rewrite tget_tab by assumption.
  rewrite Rsum_tabulate. f_equal. apply sigma_sum_ext. intros n Hn.
  unfold m_phi. rewrite qget_tab by assumption.
  now rewrite qget_m_xi.
Qed.

Lemma shape0_m_mu (g data : matrix) : shape0 (m_mu g data) = shape0 g.
Proof. unfold m_mu, shape0. apply length_tabulate. Qed.

(** C6: in every iteration, with [g] the responsibilities that the E-step
    has just stored and [N_m] the sum of row [m] of [g], the assignments of
    the M-step leave [weights[m] = N_m / N],
    [means[m] = (g[m,:] . data) / N_m] and, before any repair,
    [covariances[m] = (sum over the data points of
    g[m,n] (x_n - means[m]) (x_n - means[m])^T) / N_m] with the mean just
    assigned; the repair that follows changes neither the weights nor the
    means nor the responsibilities. *)
Theorem m_step_update_formulas (s : GMM) (data : matrix) (m i j : nat) :
  (m < _m s)%nat -> (i < shape1 data)%nat -> (j < shape1 data)%nat ->
  let s' := snd (em_update mvn_pdf data s) in
  let g := gamma_of s' in
  let N := shape0 data in
  let N_m := sigma_sum N (fun n => mget g m n) in
  g = e_gamma mvn_pdf s data /\
  vget (_pi s') m = N_m / INR N /\
  mget (_mu s') m j = sigma_sum N (fun n => mget g m n * mget data n j) / N_m /\
  tget (_sigma s') m i j
  = sigma_sum N (fun n =>
      mget g m n * ((mget data n i - mget (_mu s') m i)
                    * (mget data n j - mget (_mu s') m j))) / N_m /\
  forall fuel tol,
    let s'' := snd (_expectation_maximization eigvals mvn_pdf fuel data tol s) in
    _pi s'' = _pi s' /\ _mu s'' = _mu s' /\ _gamma s'' = _gamma s'.
Proof.
  intros Hm Hi Hj. rewrite em_update_run. simpl.
  unfold gamma_of, after_update; simpl.
  destruct (shape_e_gamma s data) as [Hrows _].
  rewrite <- (N_m_e_gamma s data m Hm).
  split; [reflexivity|].
  split; [apply vget_m_pi; now rewrite Hrows|].
  split; [apply mget_m_mu; [now rewrite Hrows | assumption]|].
  split.
  - apply tget_m_sigma; try assumption. now rewrite shape0_m_mu, Hrows.
  - intros fuel tol.
    destruct (em_fields eigvals mvn_pdf fuel data tol s) as (_ & _ & Hpi & Hmu & Hg).
    now rewrite Hpi, Hmu, Hg.
Qed.

(** C7: after an iteration that returns, [logPosterior] is the sum over
    the data points of the logarithm of the column sum of the unnormalised
    responsibilities, the sum over the mixtures of weight times density
    with the parameters the model had when the iteration began; the
    responsibilities left in the model are those weighted densities divided
    by the same column sums. *)
Theorem log_posterior_of_e_step (fuel : nat) (data : matrix) (tol : R) (s s' : GMM) :
  _expectation_maximization eigvals mvn_pdf fuel data tol s = (Ok tt, s') ->
  _post s'
  = sigma_sum (shape0 data) (fun n =>
      ln (sigma_sum (_m s) (fun m =>
            vget (_pi s) m * mvn_pdf (row data n) (row (_mu s) m) (slab (_sigma s) m)))) /\
  forall m n, (m < _m s)%nat -> (n < shape0 data)%nat ->
    mget (gamma_of s') m n
    = vget (_pi s) m * mvn_pdf (row data n) (row (_mu s) m) (slab (_sigma s) m)
      / sigma_sum (_m s) (fun m' =>
          vget (_pi s) m' * mvn_pdf (row data n) (row (_mu s) m') (slab (_sigma s) m')).
Proof.
  intro Hrun.
  pose proof (em_fields eigvals mvn_pdf fuel data tol s) as Hf.
  rewrite Hrun in Hf. simpl in Hf. destruct Hf as (_ & _ & _ & _ & Hg).
  split.
  - rewrite em_run in Hrun.
    destruct (for_each _ _ _) as [[[]|e|] s2]; try discriminate.
    inversion Hrun; subst s'. simpl.
    unfold e_sum_m_pi_mixture at 1. unfold tabulate at 1.
    rewrite map_map. fold (tabulate (shape0 data)
      (fun n => ln (Rsum (tabulate (_m s)
         (fun m => mget (e_pi_mixture mvn_pdf s data) m n))))).
    rewrite Rsum_tabulate. apply sigma_sum_ext. intros n Hn.
    rewrite Rsum_tabulate. f_equal. apply sigma_sum_ext. intros m Hm.
    now apply mget_e_pi_mixture.
  - intros m n Hm Hn. unfold gamma_of. rewrite Hg.
    now apply mget_e_gamma.
Qed.

End Steps.

(** ** What [fit] keeps *)

Section Invariant.

Variable eigvals : matrix -> list R.
Variable mvn_pdf : vec -> vec -> matrix -> R.
Variable kmeans : matrix -> nat -> matrix.

(** The density of a normal law with a covariance that passes
    [_is_pos_def] is positive. *)
Hypothesis pdf_pos :
  forall x mu cov, _is_pos_def eigvals cov = true -> 0 < mvn_pdf x mu cov.

(** The eigenvalues of an identity matrix pass the check (they are 1). *)
Hypothesis eig_identity :
  forall d, _is_pos_def eigvals (identity d) = true.

Lemma weights_ok_mixtures (s : GMM) : weights_ok s -> (0 < _m s)%nat.
Proof.
  intros (Hlen & _ & Hsum). destruct (_m s); [|lia].
  destruct (_pi s); [simpl in Hsum; lra | discriminate].
Qed.

Lemma weighted_density_pos (s : GMM) (data : matrix) (m n : nat) :
  weights_ok s -> covariances_ok eigvals s -> (m < _m s)%nat ->
  0 < weighted_density mvn_pdf s data m n.
Proof.
  intros (_ & Hpos & _) Hcov Hm. unfold weighted_density.
  apply Rmult_lt_0_compat; [now apply Hpos | apply pdf_pos; now apply Hcov].
Qed.

Lemma mixture_density_pos (s : GMM) (data : matrix) (n : nat) :
  weights_ok s -> covariances_ok eigvals s ->
  0 < mixture_density mvn_pdf s data n.
Proof.
  intros Hw Hcov. unfold mixture_density.
  apply sigma_sum_pos; [now apply weights_ok_mixtures|].
  intros m Hm. now apply weighted_density_pos.
Qed.

(** Each column of the responsibilities of the E-step sums to 1. *)
Lemma e_gamma_column (s : GMM) (data : matrix) (n : nat) :
  weights_ok s -> covariances_ok eigvals s -> (n < shape0 data)%nat ->
  sigma_sum (_m s) (fun m => mget (e_gamma mvn_pdf s data) m n) = 1.
Proof.
  intros Hw Hcov Hn.
  rewrite (sigma_sum_ext _ _
    (fun m => weighted_density mvn_pdf s data m n / mixture_density mvn_pdf s data n))
    by (intros m Hm; now apply mget_e_gamma).
  rewrite sigma_sum_div. fold (mixture_density mvn_pdf s data n).
  pose proof (mixture_density_pos s data n Hw Hcov).
  field. lra.
Qed.

Lemma e_gamma_pos (s : GMM) (data : matrix) (m n : nat) :
  weights_ok s -> covariances_ok eigvals s ->
  (m < _m s)%nat -> (n < shape0 data)%nat ->
  0 < mget (e_gamma mvn_pdf s data) m n.
Proof.
  intros Hw Hcov Hm Hn. rewrite mget_e_gamma by assumption.
  apply Rdiv_lt_0_compat;
    [now apply weighted_density_pos | now apply mixture_density_pos].
Qed.

(** The weights of the M-step are positive and sum to 1. *)
Lemma m_pi_ok (s : GMM) (data : matrix) :
  weights_ok s -> covariances_ok eigvals s -> (0 < shape0 data)%nat ->
  let pi' := m_pi (e_gamma mvn_pdf s data) data in
  length pi' = _m s /\
  (forall m, (m < _m s)%nat -> 0 < vget pi' m) /\
  Rsum pi' = 1.
Proof.
  intros Hw Hcov HN pi'.
  destruct (shape_e_gamma mvn_pdf s data) as [Hrows _].
  assert (HNpos : 0 < INR (shape0 data)) by now apply lt_0_INR.
  assert (Hlen : length pi' = _m s).
  { unfold pi', m_pi, m_N_m. now rewrite !length_map. }
  assert (Hget : forall m, (m < _m s)%nat ->
            vget pi' m
            = sigma_sum (shape0 data) (fun n => mget (e_gamma mvn_pdf s data) m n)
              / INR (shape0 data)).
  { intros m Hm. unfold pi'. rewrite vget_m_pi by (now rewrite Hrows).
    now rewrite N_m_e_gamma. }
  split; [exact Hlen|]. split.
  - intros m Hm. rewrite Hget by assumption.
    apply Rdiv_lt_0_compat; [|assumption].
    apply sigma_sum_pos; [assumption|]. intros n Hn. now apply e_gamma_pos.
  - rewrite Rsum_by_index, Hlen.
    rewrite (sigma_sum_ext _ _ _ Hget), sigma_sum_div, sigma_sum_swap.
    rewrite (sigma_sum_ext _ _ (fun _ => 1))
      by (intros n Hn; now apply e_gamma_column).
    rewrite sigma_sum_const. field. lra.
Qed.

(** One iteration that returns keeps the three properties. *)
Lemma em_keeps_valid (fuel : nat) (data : matrix) (tol : R) (s s' : GMM) :
  weights_ok s -> covariances_ok eigvals s -> (0 < shape0 data)%nat ->
  _expectation_maximization eigvals mvn_pdf fuel data tol s = (Ok tt, s') ->
  weights_ok s' /\ covariances_ok eigvals s' /\ responsibilities_ok s'.
Proof.
  intros Hw Hcov HN Hrun.
  pose proof (em_fields eigvals mvn_pdf fuel data tol s) as Hf.
  rewrite Hrun in Hf. simpl in Hf. destruct Hf as (Hm & _ & Hpi & _ & Hg).
  split; [|split].
  - unfold weights_ok. rewrite Hm, Hpi. now apply m_pi_ok.
  - rewrite em_run in Hrun.
    destruct (repairs_post eigvals fuel (seq 0 (_m s)) (after_update mvn_pdf s data))
      as (_ & Hok & _).
    destruct (for_each _ _ _) as [[[]|e|] s2]; try discriminate.
    inversion Hrun; subst s'. simpl in *. unfold covariances_ok. simpl.
    intros k Hk. simpl in Hk. apply Hok; [reflexivity|]. apply in_seq. lia.
  - unfold responsibilities_ok. rewrite Hg.
    destruct (shape_e_gamma mvn_pdf s data) as [Hrows Hcols].
    pose proof (weights_ok_mixtures s Hw) as HM.
    unfold shape1. rewrite (Hcols 0%nat HM), Hrows.
    intros n Hn. now apply e_gamma_column.
Qed.

Lemma fit_while_keeps_valid (fuel inner : nat) (data : matrix) (max_steps : Z)
    (tol : R) (km : bool) (step : Z) (post_prev : R) (s s' : GMM) (n : Z) :
  weights_ok s -> covariances_ok eigvals s -> responsibilities_ok s ->
  (0 < shape0 data)%nat ->
  fit_while eigvals mvn_pdf kmeans fuel inner data max_steps tol km step post_prev s
  = (Ok n, s') ->
  weights_ok s' /\ covariances_ok eigvals s' /\ responsibilities_ok s'.
Proof.
  intros Hw Hcov Hg HN. revert step post_prev s Hw Hcov Hg.
  induction fuel as [|f IH]; intros step post_prev s Hw Hcov Hg;
    rewrite fit_while_eq;
    (destruct (Rgtb _ tol && (step <? max_steps)%Z);
     [| intro H; inversion H; subst; auto]); try discriminate.
  set (s1 := if (step =? 0)%Z && km then with_mu s (kmeans data (_m s)) else s).
  assert (Hw1 : weights_ok s1) by (unfold s1; destruct (_ && km); assumption).
  assert (Hcov1 : covariances_ok eigvals s1)
    by (unfold s1; destruct (_ && km); assumption).
  simpl.
  destruct (_expectation_maximization eigvals mvn_pdf inner data tol s1)
    as [[[]|e|] s2] eqn:Erun; try discriminate.
  destruct (em_keeps_valid inner data tol s1 s2 Hw1 Hcov1 HN Erun) as (? & ? & ?).
  now apply IH.
Qed.

Lemma Rsum_scaled_ones (n : nat) (c : R) :
  Rsum (map (fun x => x / c) (repeat 1 n)) = INR n / c.
Proof.
  induction n as [|n IH]; [simpl; lra|].
  rewrite S_INR. simpl repeat. simpl map. simpl Rsum. rewrite IH. lra.
Qed.

(** Construction with at least one mixture gives a model with the three
    properties that [fit] keeps. *)
Lemma new_model_ok (m d : nat) (randn : matrix) :
  (0 < m)%nat ->
  weights_ok (new_model m d randn) /\
  covariances_ok eigvals (new_model m d randn) /\
  responsibilities_ok (new_model m d randn).
Proof.
  intro Hm. assert (0 < INR m) by now apply lt_0_INR.
  split; [|split].
  - unfold weights_ok, new_model; simpl.
    split; [now rewrite length_map, repeat_length|]. split.
    + intros k Hk. unfold vget.
      rewrite (nth_map_lt _ _ k 0 0) by (now rewrite repeat_length).
      rewrite nth_repeat_lt by assumption. apply Rdiv_lt_0_compat; lra.
    + rewrite Rsum_scaled_ones. field. lra.
  - intros k Hk. unfold new_model, slab in *; simpl in *.
    rewrite nth_repeat_lt by assumption. apply eig_identity.
  - exact I.
Qed.

Lemma fit_keeps_valid (fuel : nat) (data : matrix) (max_steps : Z)
    (tol : R) (km : bool) (s s' : GMM) (n : Z) :
  weights_ok s -> covariances_ok eigvals s -> responsibilities_ok s ->
  (0 < shape0 data)%nat ->
  fit eigvals mvn_pdf kmeans fuel data max_steps tol km s = (Ok n, s') ->
  weights_ok s' /\ covariances_ok eigvals s' /\ responsibilities_ok s'.
Proof. intros Hw Hcov Hg HN Hrun. now apply (fit_while_keeps_valid _ _ _ _ _ _ _ _ _ _ _ Hw Hcov Hg HN Hrun). Qed.

Lemma reachable_valid (s : GMM) :
  reachable eigvals mvn_pdf kmeans s ->
  weights_ok s /\ covariances_ok eigvals s /\ responsibilities_ok s.
Proof.
  induction 1 as [m d randn Hm | s s' fuel data max_steps tol km n _ (Hw & Hcov & Hg) HN Hrun].
  - now apply new_model_ok.
  - now apply (fit_keeps_valid fuel data max_steps tol km s s' n).
Qed.

(** C2: for a model built with at least one mixture and
    fitted any number of times, each time to completion, on datasets with
    at least one row, a further call of [fit] on such a dataset that runs to
    completion leaves the weights of sum 1, every covariance with all
    eigenvalues greater than 0.02, and every column of the
    responsibilities, once an iteration has computed them, of sum 1. *)
Theorem fit_keeps_model_valid (fuel : nat) (data : matrix) (max_steps : Z)
    (tol : R) (km : bool) (s s' : GMM) (n : Z) :
  reachable eigvals mvn_pdf kmeans s ->
  (0 < shape0 data)%nat ->
  fit eigvals mvn_pdf kmeans fuel data max_steps tol km s = (Ok n, s') ->
  Rsum (_pi s') = 1 /\
  (forall m e, (m < _m s')%nat -> In e (eigvals (slab (_sigma s') m)) -> e > 0.02) /\
  (forall g, _gamma s' = Some g ->
     forall k, (k < shape1 g)%nat -> sigma_sum (shape0 g) (fun m => mget g m k) = 1).
Proof.
  intros Hreach HN Hrun.
  destruct (reachable_valid s Hreach) as (Hw & Hcov & Hg).
  destruct (fit_keeps_valid fuel data max_steps tol km s s' n Hw Hcov Hg HN Hrun)
    as (Hw' & Hcov' & Hg').
  split; [apply Hw'|]. split.
  - intros m e Hm Hin. specialize (Hcov' m Hm). unfold _is_pos_def in Hcov'.
    rewrite forallb_forall in Hcov'. now apply Rgtb_spec, Hcov'.
  - intros g Eg. unfold responsibilities_ok in Hg'. now rewrite Eg in Hg'.
Qed.

End Invariant.

(** ** The density queries *)

Lemma length_vec_map2 (f : R -> R -> R) (a b : vec) :
  length a = length b -> length (vec_map2 f a b) = length a.
Proof.
  revert b; induction a as [|x a IH]; intros [|y b] H; simpl in *; try lia.
  now rewrite IH by lia.
Qed.

Lemma vget_vec_map2 (f : R -> R -> R) (a b : vec) (k : nat) :
  length a = length b -> (k < length a)%nat ->
  vget (vec_map2 f a b) k = f (vget a k) (vget b k).
Proof.
  unfold vget.
  revert b k; induction a as [|x a IH]; intros [|y b] [|k] H Hk; simpl in *;
    try lia; auto.
  apply IH; lia.
Qed.

(** The accumulation [for m in range(M): distr += h(m, x)] from zeros. *)
Lemma accumulate_densities (h : nat -> R -> R) (x : vec) (M : nat) :
  length (fold_left (fun distr m => vec_map2 Rplus distr (map (h m) x))
            (seq 0 M) (map (fun _ => 0) x)) = length x /\
  forall k, (k < length x)%nat ->
    vget (fold_left (fun distr m => vec_map2 Rplus distr (map (h m) x))
            (seq 0 M) (map (fun _ => 0) x)) k
    = sigma_sum M (fun m => h m (vget x k)).
Proof.
  induction M as [|M [IHlen IHget]].
  - simpl. split; [apply length_map|]. intros k Hk. unfold vget.
    now rewrite (nth_map_lt _ x k 0 0).
  - rewrite seq_S, fold_left_app. simpl.
    split.
    + rewrite length_vec_map2; [assumption | now rewrite length_map].
    + intros k Hk.
      rewrite vget_vec_map2 by (rewrite ?length_map; lia).
      rewrite IHget by assumption. f_equal.
      unfold vget. now rewrite (nth_map_lt _ x k 0 0).
Qed.

(** [mlab.normpdf] at the standard deviation [sqrt var] is the normal
    density of variance [var]. *)
Lemma normpdf_sqrt (x mu var : R) :
  0 < var -> normpdf x mu (sqrt var) = normal_density mu var x.
Proof.
  intro Hv. unfold normpdf, normal_density.
  assert (Hs : 0 < sqrt var) by now apply sqrt_lt_R0.
  assert (H2 : 0 < sqrt (2 * PI)) by (apply sqrt_lt_R0; pose proof PI_RGT_0; lra).
  assert (Hsq : sqrt var * sqrt var = var) by (apply sqrt_sqrt; lra).
  rewrite (sqrt_mult (2 * PI) var) by (pose proof PI_RGT_0; lra).
  replace (- 0.5 * (1 / sqrt var * (x - mu)) ^ 2) with (- (x - mu) ^ 2 / (2 * var)).
  - field. lra.
  - set (sv := sqrt var) in *. rewrite <- Hsq.
    replace (-0.5) with (- (1 / 2)) by lra. field. lra.
Qed.

Lemma normpdf_pos (x mu sigma : R) : 0 < sigma -> 0 < normpdf x mu sigma.
Proof.
  intro Hs. unfold normpdf.
  assert (0 < sqrt (2 * PI)) by (apply sqrt_lt_R0; pose proof PI_RGT_0; lra).
  apply Rmult_lt_0_compat; [|apply exp_pos].
  apply Rdiv_lt_0_compat; [lra | now apply Rmult_lt_0_compat].
Qed.

Lemma vget_linspace (start stop : R) (num k : nat) :
  (k < num)%nat ->
  vget (linspace start stop num) k = start + INR k * ((stop - start) / INR (num - 1)).
Proof. intro H. unfold linspace. now apply vget_tab. Qed.

Lemma linspace_last (start stop : R) (num : nat) :
  (2 <= num)%nat -> vget (linspace start stop num) (num - 1) = stop.
Proof.
  intro H. rewrite vget_linspace by lia.
  assert (0 < INR (num - 1)) by (apply lt_0_INR; lia).
  field. lra.
Qed.

Section Queries.

Variable eigvals : matrix -> list R.
Variable mvn_pdf : vec -> vec -> matrix -> R.

Lemma multivariate_loop_state (fuel : nat) (ms : list nat) (i j : nat)
    (ra_i ra_j : R) (mu_i mu_j x_i x_j : vec) (distr : matrix) (s : GMM) :
  snd (multivariate_loop eigvals mvn_pdf fuel ms i j ra_i ra_j mu_i mu_j x_i x_j distr s)
  = s.
Proof.
  revert distr; induction ms as [|m ms IH]; intro distr; simpl; [reflexivity|].
  unfold bind at 1. unfold get. unfold bind, lift.
  destruct (repair eigvals fuel 2 _) as [cov|e|]; simpl; auto.
Qed.

(** C9: [get_marginal] and [get_multivariate] leave every field of the
    model as it was, whatever they return and also while the repair loop
    of [get_multivariate] is still running: that loop rebinds the local
    [cov] only. *)
Theorem queries_leave_model_unchanged (fuel i j : nat)
    (interval plot_interval : R * R)
    (intervals plot_intervals : (R * R) * (R * R))
    (scaling_factor : R) (num_samples : nat) (s : GMM) :
  snd (get_marginal i interval plot_interval scaling_factor num_samples s) = s /\
  snd (get_multivariate eigvals mvn_pdf fuel i j intervals plot_intervals
         scaling_factor num_samples s) = s.
Proof.
  split; [reflexivity|].
  unfold get_multivariate. unfold bind at 1. unfold get. unfold bind.
  match goal with
  | |- context [multivariate_loop ?a ?b ?c ?d ?e ?f ?g ?h ?k ?l ?x ?y ?z ?t] =>
      pose proof (multivariate_loop_state c d e f g h k l x y z t) as Hs;
      destruct (multivariate_loop a b c d e f g h k l x y z t) as [[r|e0|] s1]
  end; simpl in *; auto.
Qed.

(** C8: on a model whose arrays have one row per mixture and whose
    rescaled variances are positive, as a fitted model's are,
    [get_marginal] returns two sequences of length [num_samples]: the
    abscissas [plot_interval[0] + k * (plot_interval[1] - plot_interval[0])
    / (num_samples - 1)], which end at [plot_interval[1]], and at each
    abscissa the sum over the mixtures of the weight times the normal
    density of mean [ra * means[m][i] + c] and variance
    [covariances[m][i][i] * ra^2]. *)
Theorem get_marginal_is_weighted_normal_sum (i : nat)
    (interval plot_interval : R * R) (scaling_factor : R) (num_samples : nat)
    (s : GMM) :
  let ra := (snd interval - fst interval) / (2 * scaling_factor) in
  let c := (fst interval + snd interval) / 2 in
  (_m s <= length (_mu s))%nat ->
  (_m s <= length (_sigma s))%nat ->
  (forall m, (m < _m s)%nat -> 0 < tget (_sigma s) m i i * ra ^ 2) ->
  exists x distr,
    get_marginal i interval plot_interval scaling_factor num_samples s
    = (Ok (x, distr), s) /\
    length x = num_samples /\ length distr = num_samples /\
    ((2 <= num_samples)%nat -> vget x (num_samples - 1) = snd plot_interval) /\
    forall k, (k < num_samples)%nat ->
      vget x k = fst plot_interval
                 + INR k * ((snd plot_interval - fst plot_interval)
                            / INR (num_samples - 1)) /\
      vget distr k
      = sigma_sum (_m s) (fun m =>
          vget (_pi s) m
          * normal_density (ra * mget (_mu s) m i + c)
              (tget (_sigma s) m i i * ra ^ 2) (vget x k)).
Proof.
  intros ra c Hmu Hsigma Hvar.
  unfold get_marginal, bind, get, ret.
  set (x := linspace (fst plot_interval) (snd plot_interval) num_samples).
  set (mu := map _ (_mu s)). set (var := map _ (_sigma s)).
  assert (Hx : length x = num_samples) by apply length_tabulate.
  destruct (accumulate_densities
    (fun m xk => vget (_pi s) m * normpdf xk (vget mu m) (sqrt (vget var m)))
    x (_m s)) as [Hlen Hget].
  eexists; eexists. split; [reflexivity|].
  split; [exact Hx|]. split; [now rewrite Hlen|].
  split; [intro H2; now apply linspace_last|].
  intros k Hk. split; [now apply vget_linspace|].
  rewrite Hget by (now rewrite Hx).
  apply sigma_sum_ext. intros m Hm. f_equal.
  assert (Emu : vget mu m = ra * mget (_mu s) m i + c).
  { unfold vget at 1, mu. rewrite (nth_map_lt _ (_mu s) m 0 []) by lia.
    unfold ra, c. replace (2.0) with 2 by lra. reflexivity. }
  assert (Evar : vget var m = tget (_sigma s) m i i * ra ^ 2).
  { unfold vget at 1, var. rewrite (nth_map_lt _ (_sigma s) m 0 []) by lia.
    unfold ra. replace (2.0) with 2 by lra. reflexivity. }
  rewrite Emu, Evar. apply normpdf_sqrt. now apply Hvar.
Qed.

End Queries.

(** ** The instances on diagonal covariances *)

Lemma in_tabulate {A : Type} (n : nat) (f : nat -> A) (y : A) :
  In y (tabulate n f) <-> exists i, (i < n)%nat /\ y = f i.
Proof.
  unfold tabulate. rewrite in_map_iff. split.
  - intros (i & <- & Hi). apply in_seq in Hi. exists i. split; [lia | reflexivity].
  - intros (i & Hi & ->). exists i. split; [reflexivity | apply in_seq; lia].
Qed.

Lemma pd_diag_iff (a : matrix) :
  _is_pos_def eigvals_diag a = true <->
  forall i, (i < length a)%nat -> mget a i i > 0.02.
Proof.
  unfold _is_pos_def, eigvals_diag. rewrite forallb_forall. split.
  - intros H i Hi. apply Rgtb_spec, H, in_tabulate. now exists i.
  - intros H e He. apply in_tabulate in He. destruct He as (i & Hi & ->).
    now apply Rgtb_spec, H.
Qed.

Lemma pd_diag_false (a : matrix) (i : nat) :
  (i < length a)%nat -> mget a i i <= 0.02 -> _is_pos_def eigvals_diag a = false.
Proof.
  intros Hi Hle. destruct (_is_pos_def eigvals_diag a) eqn:E; [|reflexivity].
  rewrite pd_diag_iff in E. specialize (E i Hi). lra.
Qed.

Lemma product_pos (l : list R) :
  (forall y, In y l -> 0 < y) -> 0 < fold_right Rmult 1 l.
Proof.
  induction l as [|x l IH]; intro H; simpl; [lra|].
  apply Rmult_lt_0_compat; [apply H; now left | apply IH; intros; apply H; now right].
Qed.

Lemma mvn_pdf_diag_pos (x mu : vec) (cov : matrix) :
  _is_pos_def eigvals_diag cov = true -> 0 < mvn_pdf_diag x mu cov.
Proof.
  intro H. rewrite pd_diag_iff in H. unfold mvn_pdf_diag.
  apply product_pos. intros y Hy. apply in_tabulate in Hy.
  destruct Hy as (i & Hi & ->). apply normpdf_pos, sqrt_lt_R0.
  specialize (H i Hi). lra.
Qed.

Lemma pd_diag_identity (d : nat) : _is_pos_def eigvals_diag (identity d) = true.
Proof.
  apply pd_diag_iff. unfold identity. rewrite length_tabulate. intros i Hi.
  rewrite mget_tab by assumption. rewrite Nat.eqb_refl. lra.
Qed.

(** A matrix whose first diagonal entry is 0 keeps it under the
    perturbation, and never passes the check. *)
Lemma perturb_zero_corner (d : nat) (a : matrix) :
  (0 < length a)%nat -> mget a 0 0 = 0 ->
  (0 < length (perturb (S d) a))%nat /\ mget (perturb (S d) a) 0 0 = 0.
Proof.
  destruct a as [|r rest]; simpl; [lia|]. intros _ H0.
  unfold perturb, identity, tabulate, mat_scale. simpl.
  split; [lia|].
  destruct r as [|x r]; [reflexivity|].
  unfold mget, row, vget in *; simpl in *. rewrite H0. lra.
Qed.

Lemma zero_corner_never_pd (d : nat) (a : matrix) (k : nat) :
  (0 < length a)%nat -> mget a 0 0 = 0 ->
  _is_pos_def eigvals_diag (perturb_iter (S d) k a) = false.
Proof.
  revert a; induction k as [|k IH]; intros a Hlen H0; simpl.
  - apply (pd_diag_false a 0); [assumption | lra].
  - destruct (perturb_zero_corner d a Hlen H0). now apply IH.
Qed.

(** Construction with at least one mixture gives a model with the three
    properties that [fit] keeps. *)
Lemma new_model_valid (m d : nat) (randn : matrix) :
  (0 < m)%nat ->
  weights_ok (new_model m d randn) /\
  covariances_ok eigvals_diag (new_model m d randn) /\
  responsibilities_ok (new_model m d randn).
Proof. apply new_model_ok, pd_diag_identity. Qed.

(** ** Iterations that need no repair, and iterations that never end *)

Section Runs.

Variable eigvals : matrix -> list R.
Variable mvn_pdf : vec -> vec -> matrix -> R.

Lemma repairs_noop (fuel : nat) (ks : list nat) (s : GMM) :
  (forall k, In k ks -> _is_pos_def eigvals (slab (_sigma s) k) = true) ->
  for_each ks (repair_sigma eigvals fuel) s = (Ok tt, s).
Proof.
  induction ks as [|k ks IH]; intro H; simpl; [reflexivity|].
  unfold bind. rewrite repair_sigma_eq, (H k) by now left.
  apply IH. intros; apply H; now right.
Qed.

Lemma em_ok_when_pd (fuel : nat) (data : matrix) (tol : R) (s : GMM) :
  (forall k, (k < _m s)%nat ->
     _is_pos_def eigvals (slab (_sigma (after_update mvn_pdf s data)) k) = true) ->
  _expectation_maximization eigvals mvn_pdf fuel data tol s
  = (Ok tt, with_post (after_update mvn_pdf s data)
              (Rsum (map ln (e_sum_m_pi_mixture mvn_pdf s data)))).
Proof.
  intro H. rewrite em_run, repairs_noop; [reflexivity|].
  intros k Hk. apply in_seq in Hk. apply H. lia.
Qed.

(** An iteration whose first covariance never passes the check is still
    in its repair loop whatever the fuel. *)
Lemma em_diverges (fuel : nat) (data : matrix) (tol : R) (s : GMM) :
  (0 < _m s)%nat ->
  (forall k, _is_pos_def eigvals
     (perturb_iter (_d s) k (slab (_sigma (after_update mvn_pdf s data)) 0)) = false) ->
  fst (_expectation_maximization eigvals mvn_pdf fuel data tol s) = OutOfFuel.
Proof.
  intros Hm H. rewrite em_run.
  destruct (_m s) as [|m] eqn:Em; [lia|].
  change (seq 0 (S m)) with (0%nat :: seq 1 m). simpl for_each. unfold bind.
  destruct (repair_sigma_run eigvals fuel 0 (after_update mvn_pdf s data))
    as (j & _ & Hrun).
  rewrite Hrun. change (_d (after_update mvn_pdf s data)) with (_d s).
  rewrite (repair_diverges eigvals (_d s) _ H). reflexivity.
Qed.

(** With one mixture every responsibility is 1. *)
Lemma single_mixture_gamma (s : GMM) (data : matrix) (n : nat) :
  _m s = 1%nat -> (n < shape0 data)%nat ->
  0 < weighted_density mvn_pdf s data 0 n ->
  mget (e_gamma mvn_pdf s data) 0 n = 1.
Proof.
  intros Hm Hn Hpos. rewrite mget_e_gamma by (rewrite ?Hm; lia).
  unfold mixture_density. rewrite Hm. simpl. field. lra.
Qed.

End Runs.

(** ** One mixture on a line, two data points *)

Lemma one_mixture_line (s : GMM) (a b : R) :
  _m s = 1%nat -> weights_ok s -> covariances_ok eigvals_diag s ->
  let s1 := after_update mvn_pdf_diag s [[a]; [b]] in
  vget (_pi s1) 0 = 1 /\
  mget (_mu s1) 0 0 = (a + b) / 2 /\
  tget (_sigma s1) 0 0 0 = ((a - (a + b) / 2) ^ 2 + (b - (a + b) / 2) ^ 2) / 2 /\
  length (slab (_sigma s1) 0) = 1%nat.
Proof.
  intros Hm Hw Hcov s1. set (data := [[a]; [b]]).
  assert (Hcols : shape1 data = 1%nat) by reflexivity.
  assert (Hlen : shape0 data = 2%nat) by reflexivity.
  set (g := e_gamma mvn_pdf_diag s data).
  assert (Hg : forall n, (n < 2)%nat -> mget g 0 n = 1).
  { intros n Hn. apply single_mixture_gamma; try assumption; try (rewrite Hlen; lia).
    apply (weighted_density_pos eigvals_diag mvn_pdf_diag mvn_pdf_diag_pos);
      try assumption. lia. }
  assert (Hrows : shape0 g = 1%nat)
    by (rewrite <- Hm; apply (shape_e_gamma mvn_pdf_diag s data)).
  assert (HN : vget (m_N_m g) 0 = 2).
  { unfold g. rewrite N_m_e_gamma by lia. fold g. rewrite Hlen. simpl.
    rewrite !Hg by lia. lra. }
  assert (Hmu : mget (m_mu g data) 0 0 = (a + b) / 2).
  { rewrite mget_m_mu by (rewrite ?Hrows, ?Hcols; lia). rewrite HN, Hlen. simpl.
    rewrite !Hg by lia. unfold mget, row, vget; simpl. lra. }
  split; [|split; [|split]].
  - change (_pi s1) with (m_pi g data).
    rewrite vget_m_pi by (rewrite Hrows; lia). rewrite HN, Hlen. simpl. lra.
  - exact Hmu.
  - change (_sigma s1) with (m_sigma g (m_mu g data) data).
    rewrite tget_m_sigma by (rewrite ?shape0_m_mu, ?Hrows, ?Hcols; lia).
    rewrite HN, Hmu, Hlen. simpl. rewrite !Hg by lia.
    unfold mget, row, vget; simpl. lra.
  - change (_sigma s1) with (m_sigma g (m_mu g data) data).
    unfold m_sigma, slab. rewrite nth_tabulate by (rewrite shape0_m_mu, Hrows; lia).
    apply length_tabulate.
Qed.

(** A new model of one mixture on a line, fitted to the points 0 and 10 for
    one iteration: the iteration needs no repair. *)
Lemma em_two_points (fuel : nat) (tol : R) (x0 : R) :
  exists s',
    _expectation_maximization eigvals_diag mvn_pdf_diag fuel data_two tol
      (new_model 1 1 [[x0]]) = (Ok tt, s').
Proof.
  eexists. apply em_ok_when_pd. intros k Hk.
  destruct (new_model_valid 1 1 [[x0]]) as (Hw & Hcov & _); [lia|].
  destruct (one_mixture_line (new_model 1 1 [[x0]]) 0 10 eq_refl Hw Hcov)
    as (_ & _ & Hs & Hlen).
  simpl in Hk. assert (k = 0)%nat as -> by lia.
  apply pd_diag_iff. unfold data_two. rewrite Hlen. intros i Hi.
  assert (i = 0)%nat as -> by lia.
  change (mget (slab ?t 0) 0 0) with (tget t 0 0 0).
  rewrite Hs. lra.
Qed.

Lemma fit_two_points (tol x0 : R) :
  exists s',
    fit eigvals_diag mvn_pdf_diag kmeans_first 1 data_two 1 tol false
      (new_model 1 1 [[x0]]) = (Ok 1%Z, s').
Proof.
  destruct (em_two_points 1 tol x0) as [s' Hrun]. exists s'.
  unfold fit. rewrite fit_while_eq.
  rewrite Rgtb_true.
  - change (true && (0 <? 1)%Z) with true.
    change ((0 =? 0)%Z && false) with false. cbv beta iota zeta.
    rewrite Hrun, fit_while_eq.
    change (0 + 1 <? 1)%Z with false. now rewrite andb_false_r.
  - simpl. unfold Rabs. destruct (Rcase_abs _); lra.
Qed.

(** The same model on two equal points: the covariance of the M-step is 0
    and the repair loop of the iteration never ends. *)
Lemma em_collapsed_diverges (fuel : nat) (tol : R) (x0 : R) :
  fst (_expectation_maximization eigvals_diag mvn_pdf_diag fuel data_collapsed tol
         (new_model 1 1 [[x0]])) = OutOfFuel.
Proof.
  apply em_diverges; [simpl; lia|]. intro k.
  destruct (new_model_valid 1 1 [[x0]]) as (Hw & Hcov & _); [lia|].
  destruct (one_mixture_line (new_model 1 1 [[x0]]) 5 5 eq_refl Hw Hcov)
    as (_ & _ & Hs & Hlen).
  apply zero_corner_never_pd.
  - unfold data_collapsed. rewrite Hlen. lia.
  - unfold data_collapsed. change (mget (slab ?t 0) 0 0) with (tget t 0 0 0).
    rewrite Hs. lra.
Qed.

(** ** Two mixtures, one of them thin *)

Lemma thin_model_gamma (eps : R) (n : nat) :
  0 < eps < 1 -> (n < 2)%nat ->
  mget (e_gamma mvn_pdf_diag (thin_model eps) data_two) 0 n = 1 - eps /\
  mget (e_gamma mvn_pdf_diag (thin_model eps) data_two) 1 n = eps.
Proof.
  intros He Hn.
  assert (Hp : 0 < mvn_pdf_diag (row data_two n) [0] [[1]]).
  { apply mvn_pdf_diag_pos, pd_diag_iff. simpl. intros i Hi.
    assert (i = 0)%nat as -> by lia. unfold mget, row, vget; simpl. lra. }
  rewrite !mget_e_gamma by (simpl; lia).
  unfold mixture_density, weighted_density. simpl.
  unfold vget, row, slab in *. simpl in *.
  set (p := mvn_pdf_diag _ _ _) in *.
  split; field; lra.
Qed.

Lemma thin_model_update (eps : R) :
  0 < eps < 1 ->
  let g := e_gamma mvn_pdf_diag (thin_model eps) data_two in
  let s1 := after_update mvn_pdf_diag (thin_model eps) data_two in
  vget (m_N_m g) 1 = 2 * eps /\
  vget (_pi s1) 1 = eps /\
  forall m, (m < 2)%nat ->
    mget (_mu s1) m 0 = 5 /\ tget (_sigma s1) m 0 0 = 25 /\
    length (slab (_sigma s1) m) = 1%nat.
Proof.
  intros He g s1.
  assert (Hcols : shape1 data_two = 1%nat) by reflexivity.
  assert (Hlen : shape0 data_two = 2%nat) by reflexivity.
  assert (Hrows : shape0 g = 2%nat) by apply (shape_e_gamma mvn_pdf_diag (thin_model eps)).
  assert (Hg0 : forall n, (n < 2)%nat -> mget g 0 n = 1 - eps)
    by (intros n Hn; now apply thin_model_gamma).
  assert (Hg1 : forall n, (n < 2)%nat -> mget g 1 n = eps)
    by (intros n Hn; now apply thin_model_gamma).
  assert (HN0 : vget (m_N_m g) 0 = 2 * (1 - eps)).
  { unfold g. rewrite N_m_e_gamma by (simpl; lia). fold g. rewrite Hlen. simpl.
    rewrite !Hg0 by lia. lra. }
  assert (HN1 : vget (m_N_m g) 1 = 2 * eps).
  { unfold g. rewrite N_m_e_gamma by (simpl; lia). fold g. rewrite Hlen. simpl.
    rewrite !Hg1 by lia. lra. }
  assert (Hmu : forall m, (m < 2)%nat -> mget (m_mu g data_two) m 0 = 5).
  { intros m Hm. rewrite mget_m_mu by (rewrite ?Hrows, ?Hcols; lia).
    rewrite Hlen.
    destruct m as [|[|m]];
      [rewrite HN0; simpl; rewrite !Hg0 by lia
      | rewrite HN1; simpl; rewrite !Hg1 by lia | lia];
      unfold mget, row, vget; simpl; field; lra. }
  split; [exact HN1|]. split.
  - change (_pi s1) with (m_pi g data_two).
    rewrite vget_m_pi by (rewrite Hrows; lia). rewrite HN1, Hlen. simpl. lra.
  - intros m Hm. split; [now apply Hmu|]. split.
    + change (_sigma s1) with (m_sigma g (m_mu g data_two) data_two).
      rewrite tget_m_sigma by (rewrite ?shape0_m_mu, ?Hrows, ?Hcols; lia).
      rewrite (Hmu m Hm), Hlen.
      destruct m as [|[|m]];
        [rewrite HN0; simpl; rewrite !Hg0 by lia
        | rewrite HN1; simpl; rewrite !Hg1 by lia | lia];
        unfold mget, row, vget; simpl; field; lra.
    + change (_sigma s1) with (m_sigma g (m_mu g data_two) data_two).
      unfold m_sigma, slab. rewrite nth_tabulate by (rewrite shape0_m_mu, Hrows; lia).
      apply length_tabulate.
Qed.

(** On the thin model an iteration returns, with effective count
    [2 * eps] for the second mixture. *)
Lemma em_thin_model (fuel : nat) (tol eps : R) :
  0 < eps < 1 ->
  _expectation_maximization eigvals_diag mvn_pdf_diag fuel data_two tol (thin_model eps)
  = (Ok tt, with_post (after_update mvn_pdf_diag (thin_model eps) data_two)
              (Rsum (map ln (e_sum_m_pi_mixture mvn_pdf_diag (thin_model eps) data_two)))).
Proof.
  intro He. apply em_ok_when_pd. intros k Hk. simpl in Hk.
  destruct (thin_model_update eps He) as (_ & _ & H).
  destruct (H k Hk) as (_ & Hs & Hlen).
  apply pd_diag_iff. rewrite Hlen. intros i Hi.
  assert (i = 0)%nat as -> by lia.
  change (mget (slab ?t k) 0 0) with (tget t k 0 0).
  rewrite Hs. lra.
Qed.

(** C5 (as amended): the M-step has no guard on the effective counts; an
    effective count near zero is divided by like any other, and the
    iteration completes.  On the rows [0] and [10], from two mixtures of
    mean 0 and variance 1 with the weights [1 - eps] and [eps], for every
    [eps] from 1e-100 to 1/2: the effective count of the second mixture is
    [2 * eps], and the iteration returns with the quotients as the
    parameters of that mixture, weight [2 * eps / 2 = eps], mean
    [10 * eps / (2 * eps) = 5] and variance [50 * eps / (2 * eps) = 25]. *)
Theorem m_step_divides_without_guard (fuel : nat) (tol eps : R) :
  1e-100 <= eps <= 1 / 2 ->
  exists s',
    _expectation_maximization eigvals_diag mvn_pdf_diag fuel data_two tol (thin_model eps)
    = (Ok tt, s') /\
    vget (m_N_m (gamma_of s')) 1 = 2 * eps /\
    vget (_pi s') 1 = eps /\
    mget (_mu s') 1 0 = 5 /\
    tget (_sigma s') 1 0 0 = 25.
Proof.
  intro He. assert (He' : 0 < eps < 1) by lra.
  destruct (thin_model_update eps He') as (HN & Hpi & H).
  destruct (H 1%nat ltac:(lia)) as (Hmu & Hs & _).
  eexists. split; [now apply em_thin_model|].
  simpl. split; [exact HN|]. split; [exact Hpi|]. split; [exact Hmu | exact Hs].
Qed.

(** ** Concrete runs *)

(** A model without mixtures is fitted without an error. *)
Lemma fit_no_mixture :
  exists s',
    fit eigvals_diag mvn_pdf_diag kmeans_first 1 [[0]] 1 0.001 false (new_model 0 1 [])
    = (Ok 1%Z, s') /\ _pi s' = [].
Proof.
  eexists. split.
  - unfold fit. rewrite fit_while_eq. rewrite Rgtb_true.
    + change (true && (0 <? 1)%Z) with true.
      change ((0 =? 0)%Z && false) with false. cbv beta iota zeta.
      rewrite em_ok_when_pd by (simpl; intros; lia).
      rewrite fit_while_eq.
      change (0 + 1 <? 1)%Z with false. rewrite andb_false_r. reflexivity.
    + simpl. unfold Rabs. destruct (Rcase_abs _); lra.
  - reflexivity.
Qed.

(** The joint density of a new model in the plane over two intervals that
    are single points: both scale factors are 0 and the rescaled block is
    the zero matrix. *)
Lemma multivariate_degenerate_intervals (fuel : nat) :
  fst (get_multivariate eigvals_diag mvn_pdf_diag fuel 0 1
         ((1, 1), (2, 2)) ((0, 1), (0, 1)) 1 3 (new_model 1 2 [[0; 0]])) = OutOfFuel.
Proof.
  unfold get_multivariate. unfold bind at 1. unfold get.
  cbv beta iota zeta. unfold bind at 1.
  change (seq 0 (_m (new_model 1 2 [[0; 0]]))) with [0%nat].
  cbn [multivariate_loop]. unfold bind at 1. unfold get. cbv beta iota zeta.
  unfold bind at 1, lift.
  rewrite repair_diverges; [reflexivity|].
  intro k. apply zero_corner_never_pd; [simpl; lia|].
  unfold mget, row, vget, tget, slab. simpl. unfold mget, row, vget. simpl. lra.
Qed.

Lemma degenerate_block_is_zero :
  rescaled_block (new_model 1 2 [[0; 0]]) 0 0 1
    ((1 - 1) / (2.0 * 1)) ((2 - 2) / (2.0 * 1)) = [[0; 0]; [0; 0]].
Proof.
  unfold rescaled_block.
  replace (tget (_sigma (new_model 1 2 [[0; 0]])) 0 0 0) with 1 by reflexivity.
  replace (tget (_sigma (new_model 1 2 [[0; 0]])) 0 0 1) with 0 by reflexivity.
  replace (tget (_sigma (new_model 1 2 [[0; 0]])) 0 1 1) with 1 by reflexivity.
  repeat f_equal; lra.
Qed.

(** ** The claims on concrete inputs *)

(** C1, counterexample: the 1 x 1 covariance 0 is left as it is by the
    perturbation and never passes the check, and the repair neither returns
    nor raises [NumericalFailure], whatever the fuel; so does the iteration
    of a new model, whatever mean between -10 and 10 it drew, on two equal
    data points, whose covariance is 0, and so does the joint density query
    over two intervals reduced to a point, whose rescaled block is the zero
    matrix. *)
Lemma zero_variance_repair_never_ends :
  perturb 1 [[0]] = [[0]] /\
  (forall k, _is_pos_def eigvals_diag (perturb_iter 1 k [[0]]) = false) /\
  (forall fuel, repair eigvals_diag fuel 1 [[0]] = OutOfFuel) /\
  (forall fuel, repair eigvals_diag fuel 1 [[0]] <> Raise NumericalFailure) /\
  (forall fuel x0, -10 <= x0 <= 10 ->
     fst (_expectation_maximization eigvals_diag mvn_pdf_diag fuel data_collapsed 0.001
            (new_model 1 1 [[x0]])) = OutOfFuel) /\
  rescaled_block (new_model 1 2 [[0; 0]]) 0 0 1
    ((1 - 1) / (2.0 * 1)) ((2 - 2) / (2.0 * 1)) = [[0; 0]; [0; 0]] /\
  (forall fuel,
     fst (get_multivariate eigvals_diag mvn_pdf_diag fuel 0 1
            ((1, 1), (2, 2)) ((0, 1), (0, 1)) 1 3 (new_model 1 2 [[0; 0]])) = OutOfFuel).
Proof.
  assert (H : forall k, _is_pos_def eigvals_diag (perturb_iter 1 k [[0]]) = false)
    by (intro k; apply zero_corner_never_pd; [simpl; lia | reflexivity]).
  split.
  { apply perturb_zero_diagonal.
    - split; [reflexivity|]. intros i Hi. assert (i = 0)%nat as -> by lia. reflexivity.
    - intros i Hi. assert (i = 0)%nat as -> by lia. reflexivity. }
  split; [exact H|]. split; [|split; [|split; [|split]]].
  - intro fuel. now apply repair_diverges.
  - intro fuel. rewrite (repair_diverges eigvals_diag 1 [[0]] H). discriminate.
  - intros fuel x0 _. apply em_collapsed_diverges.
  - exact degenerate_block_is_zero.
  - intro fuel. apply multivariate_degenerate_intervals.
Qed.

(** Without a mixture, which the specification of construction excludes
    ([M > 0]), the weights, none, sum to 0 after a fit on one data point. *)
Lemma fit_no_mixture_weights_sum_to_zero :
  exists s',
    fit eigvals_diag mvn_pdf_diag kmeans_first 1 [[0]] 1 0.001 false (new_model 0 1 [])
    = (Ok 1%Z, s') /\
    Rsum (_pi s') = 0 /\ Rsum (_pi s') <> 1.
Proof.
  destruct fit_no_mixture as (s' & Hrun & Hpi). exists s'.
  split; [exact Hrun|]. rewrite Hpi. simpl. split; lra.
Qed.

(** C2, witness: a new model of one mixture fitted for one iteration to
    the points 0 and 10. *)
Lemma fit_keeps_model_valid_witness :
  exists s',
    fit eigvals_diag mvn_pdf_diag kmeans_first 1 data_two 1 0.001 false
      (new_model 1 1 [[0]]) = (Ok 1%Z, s') /\
    Rsum (_pi s') = 1 /\
    (forall m e, (m < _m s')%nat -> In e (eigvals_diag (slab (_sigma s') m)) -> e > 0.02) /\
    (forall g, _gamma s' = Some g ->
       forall k, (k < shape1 g)%nat -> sigma_sum (shape0 g) (fun m => mget g m k) = 1).
Proof.
  destruct (fit_two_points 0.001 0) as [s' Hrun]. exists s'.
  split; [exact Hrun|].
  apply (fit_keeps_model_valid eigvals_diag mvn_pdf_diag kmeans_first
           mvn_pdf_diag_pos pd_diag_identity 1 data_two 1 0.001 false
           (new_model 1 1 [[0]]) s' 1%Z).
  - apply reach_new. lia.
  - simpl. lia.
  - exact Hrun.
Defined.

(** C3, at the failing input: a model that an earlier fit has left with
    log-posterior 2.02 is fitted again on two rows with tolerance 0.01 and
    at most 5 steps; the first comparison of the loop fails
    (|2.02 - 1.01 * 2| / 2 = 0 is not above 0.01) and [fit] returns after no
    iteration, the model as it was. *)
Theorem refit_runs_no_iteration :
  forall eigvals mvn_pdf kmeans fuel use_kmeans,
    fit eigvals mvn_pdf kmeans fuel refit_data 5 0.01 use_kmeans refit_model
    = (Ok 0%Z, refit_model).
Proof.
  intros. apply fit_skips_in_band; simpl; [lia | lra].
Qed.

(** C4, counterexample: construction with no mixture, or with
    dimensionality 0, returns a model; [fit] with a cap of 0 steps returns
    after no iteration, also on rows of three columns for a model on a
    line; [fit] on rows of three columns for a model in the plane whose
    log-posterior fails the first comparison returns after no iteration,
    with a cap of 5 steps and tolerance 0.01; [fit] with tolerance 0 and
    with tolerance -1 runs its iteration and returns.  None raises
    [InvalidArgument]. *)
Lemma invalid_arguments_are_accepted :
  __init__ 0 0 [] = Ok (new_model 0 0 []) /\
  __init__ 0 0 [] <> Raise InvalidArgument /\
  __init__ 0 2 [] = Ok (new_model 0 2 []) /\
  __init__ 1 0 [[]] = Ok (new_model 1 0 [[]]) /\
  fit eigvals_diag mvn_pdf_diag kmeans_first 1 data_two 0 0.001 false
    (new_model 1 1 [[0]]) = (Ok 0%Z, new_model 1 1 [[0]]) /\
  fit eigvals_diag mvn_pdf_diag kmeans_first 1 [[0; 0; 0]; [1; 1; 1]] 0 0.001 false
    (new_model 1 1 [[0]]) = (Ok 0%Z, new_model 1 1 [[0]]) /\
  _d refit_model = 2%nat /\
  fit eigvals_diag mvn_pdf_diag kmeans_first 1 [[0; 0; 0]; [1; 1; 1]] 5 0.01 false
    refit_model = (Ok 0%Z, refit_model) /\
  (exists s',
     fit eigvals_diag mvn_pdf_diag kmeans_first 1 data_two 1 0 false
       (new_model 1 1 [[0]]) = (Ok 1%Z, s')) /\
  (exists s',
     fit eigvals_diag mvn_pdf_diag kmeans_first 1 data_two 1 (-1) false
       (new_model 1 1 [[0]]) = (Ok 1%Z, s')).
Proof.
  split; [reflexivity|]. split; [discriminate|].
  split; [reflexivity|]. split; [reflexivity|].
  split; [apply fit_no_iteration; lia|].
  split; [apply fit_no_iteration; lia|].
  split; [reflexivity|].
  split; [apply fit_skips_in_band; simpl; [lia | lra]|].
  split; apply fit_two_points.
Qed.

(** C5, counterexample: with a second mixture of weight 1e-30 the
    effective count of that mixture is 2e-30, and the iteration divides by
    it and returns: weight 1e-30, mean 5, variance 25, no error. *)
Lemma thin_mixture_is_divided_through :
  let s := thin_model 1e-30 in
  let r := _expectation_maximization eigvals_diag mvn_pdf_diag 0 data_two 0.001 s in
  vget (m_N_m (e_gamma mvn_pdf_diag s data_two)) 1 = 2e-30 /\
  fst r = Ok tt /\ fst r <> Raise NumericalFailure /\
  vget (_pi (snd r)) 1 = 1e-30 /\
  mget (_mu (snd r)) 1 0 = 5 /\
  tget (_sigma (snd r)) 1 0 0 = 25.
Proof.
  intros s r.
  assert (He : 0 < 1e-30 < 1) by lra.
  destruct (thin_model_update 1e-30 He) as (HN & Hpi & H).
  destruct (H 1%nat ltac:(lia)) as (Hmu & Hs & _).
  unfold r, s. rewrite (em_thin_model 0 0.001 1e-30 He). simpl fst. simpl snd.
  split; [rewrite HN; lra|]. split; [reflexivity|]. split; [discriminate|].
  split; [exact Hpi|]. split; [exact Hmu | exact Hs].
Qed.

(** C5, witness: the second mixture of weight 1e-50. *)
Lemma m_step_divides_without_guard_witness :
  exists s',
    _expectation_maximization eigvals_diag mvn_pdf_diag 0 data_two 0.001
      (thin_model 1e-50) = (Ok tt, s') /\
    vget (m_N_m (gamma_of s')) 1 = 2 * 1e-50 /\
    vget (_pi s') 1 = 1e-50 /\
    mget (_mu s') 1 0 = 5 /\
    tget (_sigma s') 1 0 0 = 25.
Proof.
  apply (m_step_divides_without_guard 0 0.001 1e-50). lra.
Defined.

(** C6, witness: the first mixture and coordinate of a new model of one
    mixture on the points 0 and 10. *)
Lemma m_step_update_formulas_witness :
  let s' := snd (em_update mvn_pdf_diag data_two (new_model 1 1 [[0]])) in
  vget (_pi s') 0
  = sigma_sum 2 (fun n => mget (gamma_of s') 0 n) / INR 2.
Proof.
  destruct (m_step_update_formulas eigvals_diag mvn_pdf_diag
              (new_model 1 1 [[0]]) data_two 0 0 0) as (_ & H & _).
  - simpl. lia.
  - unfold shape1, data_two, row. simpl. lia.
  - unfold shape1, data_two, row. simpl. lia.
  - exact H.
Defined.

(** C7, witness: the iteration of a new model of one mixture on the points
    0 and 10. *)
Lemma log_posterior_of_e_step_witness :
  exists s',
    _expectation_maximization eigvals_diag mvn_pdf_diag 0 data_two 0.001
      (new_model 1 1 [[0]]) = (Ok tt, s') /\
    _post s'
    = sigma_sum 2 (fun n =>
        ln (sigma_sum 1 (fun m =>
              vget [1 / INR 1] m * mvn_pdf_diag (row data_two n) (row [[0]] m)
                                     (slab [identity 1] m)))).
Proof.
  destruct (em_two_points 0 0.001 0) as [s' Hrun]. exists s'.
  split; [exact Hrun|].
  exact (proj1 (log_posterior_of_e_step eigvals_diag mvn_pdf_diag 0 data_two 0.001
                  (new_model 1 1 [[0]]) s' Hrun)).
Defined.

(** C8, witness: the marginal of the fitted model of the end-to-end
    scenario, three samples over [0, 10]. *)
Lemma get_marginal_is_weighted_normal_sum_witness :
  exists x distr,
    get_marginal 0 (-1, 1) (0, 10) 1 3 fitted_model = (Ok (x, distr), fitted_model) /\
    length x = 3%nat /\ length distr = 3%nat /\ vget x 2 = 10.
Proof.
  destruct (get_marginal_is_weighted_normal_sum 0 (-1, 1) (0, 10) 1 3 fitted_model)
    as (x & distr & Hrun & Hx & Hd & Hlast & _).
  - simpl. lia.
  - simpl. lia.
  - intros m Hm. simpl in Hm. assert (m = 0)%nat as -> by lia.
    unfold tget, mget, slab, row, vget. simpl. lra.
  - exists x, distr. split; [exact Hrun|]. split; [exact Hx|]. split; [exact Hd|].
    apply Hlast. lia.
Defined.

(** C10, witness: a cap of 0 steps on the fitted model. *)
Lemma fit_nonpositive_max_steps_is_identity_witness :
  fit eigvals_diag mvn_pdf_diag kmeans_first 0 data_two 0 0.001 true fitted_model
  = (Ok 0%Z, fitted_model).
Proof.
  apply (fit_nonpositive_max_steps_is_identity eigvals_diag mvn_pdf_diag kmeans_first
           0 data_two 0 0.001 true fitted_model).
  lia.
Defined.

(** * Further properties of the code *)

(** ** The perturbation *)

(** X1: on a [d] x [d] matrix the perturbation [cov + 0.05 * I * cov]
    multiplies every diagonal entry by 1.05 and leaves every other entry as
    it is; the result is again [d] x [d]. *)
Theorem perturb_scales_the_diagonal (d : nat) (cov : matrix) (i j : nat) :
  is_square d cov -> (i < d)%nat -> (j < d)%nat ->
  is_square d (perturb d cov) /\
  mget (perturb d cov) i j
  = if Nat.eqb i j then 1.05 * mget cov i j else mget cov i j.
Proof.
  intros Hsq Hi Hj. split; [now apply perturb_square | now apply mget_perturb].
Qed.

Lemma square_2x2 (a b c e : R) : is_square 2 [[a; b]; [c; e]].
Proof.
  split; [reflexivity|]. intros [|[|i]] Hi; try lia; reflexivity.
Qed.

Lemma perturb_scales_the_diagonal_witness :
  mget (perturb 2 [[1; 2]; [2; 3]]) 1 1 = 1.05 * 3 /\
  mget (perturb 2 [[1; 2]; [2; 3]]) 0 1 = 2.
Proof.
  split.
  - apply (perturb_scales_the_diagonal 2 [[1; 2]; [2; 3]] 1 1); try lia.
    apply square_2x2.
  - apply (perturb_scales_the_diagonal 2 [[1; 2]; [2; 3]] 0 1); try lia.
    apply square_2x2.
Defined.

Section RepairResult.

Variable eigvals : matrix -> list R.

Lemma repair_result (fuel d : nat) (cov c : matrix) :
  is_square d cov ->
  repair eigvals fuel d cov = Ok c ->
  is_square d c /\ _is_pos_def eigvals c = true /\
  exists k, (k <= fuel)%nat /\ c = perturb_iter d k cov.
Proof.
  intros Hsq Hrun. apply repair_ok_iff in Hrun.
  destruct Hrun as (k & Hk & -> & Hpd & _).
  split; [now apply perturb_iter_square|]. split; [assumption|].
  now exists k.
Qed.

(** More fuel does not change what the loop returns. *)
Lemma repair_more_fuel (fuel extra d : nat) (cov c : matrix) :
  repair eigvals fuel d cov = Ok c -> repair eigvals (fuel + extra) d cov = Ok c.
Proof.
  revert cov; induction fuel as [|f IH]; intro cov; simpl.
  - destruct (_is_pos_def eigvals cov) eqn:E; [|discriminate].
    intro H. destruct extra; simpl; now rewrite E.
  - destruct (_is_pos_def eigvals cov) eqn:E; [auto|]. apply IH.
Qed.

Lemma repair_reaches (K d : nat) (cov : matrix) :
  _is_pos_def eigvals (perturb_iter d K cov) = true ->
  exists c, repair eigvals K d cov = Ok c.
Proof.
  revert cov; induction K as [|K IH]; intro cov; simpl; intro H.
  - rewrite H. now exists cov.
  - destruct (_is_pos_def eigvals cov); [now exists cov | now apply IH].
Qed.

(** X2: when the repair of a [d] x [d] covariance returns, the matrix it
    returns passes [_is_pos_def], and it is the covariance with its diagonal
    multiplied by [1.05 ^ k] for some number [k] of perturbations, its other
    entries unchanged; in particular a symmetric covariance is returned
    symmetric. *)
Theorem repair_returns_scaled_diagonal (fuel d : nat) (cov c : matrix) :
  is_square d cov ->
  repair eigvals fuel d cov = Ok c ->
  is_square d c /\ _is_pos_def eigvals c = true /\
  (exists k, (k <= fuel)%nat /\
     forall i j, (i < d)%nat -> (j < d)%nat ->
       mget c i j = (if Nat.eqb i j then 1.05 ^ k else 1) * mget cov i j) /\
  ((forall i j, (i < d)%nat -> (j < d)%nat -> mget cov i j = mget cov j i) ->
   forall i j, (i < d)%nat -> (j < d)%nat -> mget c i j = mget c j i).
Proof.
  intros Hsq Hrun.
  destruct (repair_result fuel d cov c Hsq Hrun) as (Hc & Hpd & k & Hk & ->).
  split; [assumption|]. split; [assumption|]. split.
  - exists k. split; [assumption|]. intros i j Hi Hj. now apply mget_perturb_iter.
  - intros Hsym i j Hi Hj. rewrite !mget_perturb_iter by assumption.
    rewrite (Hsym i j Hi Hj), (Nat.eqb_sym j i). reflexivity.
Qed.

End RepairResult.

Lemma repair_small_variance :
  repair eigvals_diag 1 1 [[0.0195]] = Ok (perturb 1 [[0.0195]]).
Proof.
  simpl repair.
  rewrite (pd_diag_false [[0.0195]] 0) by (simpl; try lia; unfold mget, row, vget; simpl; lra).
  replace (_is_pos_def eigvals_diag (perturb 1 [[0.0195]])) with true; [reflexivity|].
  symmetry. apply pd_diag_iff. simpl. intros i Hi. assert (i = 0)%nat as -> by lia.
  unfold mget, row, vget; simpl. lra.
Qed.

Lemma repair_returns_scaled_diagonal_witness :
  exists k, (k <= 1)%nat /\
    forall i j, (i < 1)%nat -> (j < 1)%nat ->
      mget (perturb 1 [[0.0195]]) i j
      = (if Nat.eqb i j then 1.05 ^ k else 1) * mget [[0.0195]] i j.
Proof.
  destruct (repair_returns_scaled_diagonal eigvals_diag 1 1 [[0.0195]]
              (perturb 1 [[0.0195]])) as (_ & _ & H & _).
  - split; [reflexivity|]. intros i Hi. assert (i = 0)%nat as -> by lia. reflexivity.
  - exact repair_small_variance.
  - exact H.
Defined.

(** ** The repair of diagonal covariances *)

Lemma power_exceeds (c : R) :
  0 < c -> exists K, forall n, (K <= n)%nat -> 1.05 ^ n * c > 0.02.
Proof.
  intro Hc. destruct (INR_unbounded (0.02 / c / 0.05)) as [K HK].
  exists K. intros n Hn.
  assert (Hle : INR K <= INR n) by now apply le_INR.
  pose proof (poly n 0.05 ltac:(lra)) as Hp.
  replace (1 + 0.05) with 1.05 in Hp by lra.
  assert (Hbig : INR n * 0.05 * c > 0.02).
  { assert (0.02 / c / 0.05 < INR n) by lra.
    apply (Rmult_lt_compat_r (0.05 * c)) in H; [|nra].
    replace (0.02 / c / 0.05 * (0.05 * c)) with 0.02 in H by (field; lra).
    lra. }
  nra.
Qed.

Lemma powers_exceed (d : nat) (f : nat -> R) :
  (forall i, (i < d)%nat -> 0 < f i) ->
  exists K, forall n i, (K <= n)%nat -> (i < d)%nat -> 1.05 ^ n * f i > 0.02.
Proof.
  induction d as [|d IH]; intro Hpos.
  - exists 0%nat. intros; lia.
  - destruct IH as [K1 H1]; [intros; apply Hpos; lia|].
    destruct (power_exceeds (f d)) as [K2 H2]; [apply Hpos; lia|].
    exists (Nat.max K1 K2). intros n i Hn Hi.
    destruct (Nat.eq_dec i d) as [->|Hne]; [apply H2; lia | apply H1; lia].
Qed.

Section DiagonalRepair.

Variable eigvals : matrix -> list R.

(** The eigenvalues of a diagonal matrix are its diagonal entries. *)
Hypothesis eig_diag :
  forall d a, is_square d a -> is_diagonal d a ->
    forall e, In e (eigvals a) <-> exists i, (i < d)%nat /\ e = mget a i i.

Lemma pd_diagonal (d : nat) (a : matrix) :
  is_square d a -> is_diagonal d a ->
  (_is_pos_def eigvals a = true <-> forall i, (i < d)%nat -> mget a i i > 0.02).
Proof.
  intros Hsq Hdiag. unfold _is_pos_def. rewrite forallb_forall. split.
  - intros H i Hi. apply Rgtb_spec, H, (eig_diag d a Hsq Hdiag). now exists i.
  - intros H e He. apply (eig_diag d a Hsq Hdiag) in He.
    destruct He as (i & Hi & ->). now apply Rgtb_spec, H.
Qed.

Lemma perturb_iter_diagonal (d k : nat) (a : matrix) :
  is_square d a -> is_diagonal d a -> is_diagonal d (perturb_iter d k a).
Proof.
  intros Hsq Hdiag i j Hi Hj Hne. rewrite mget_perturb_iter by assumption.
  rewrite (Hdiag i j Hi Hj Hne). lra.
Qed.


End DiagonalRepair.

Lemma eigvals_diag_exact (d : nat) (a : matrix) :
  is_square d a -> is_diagonal d a ->
  forall e, In e (eigvals_diag a) <-> exists i, (i < d)%nat /\ e = mget a i i.
Proof.
  intros [Hlen _] _ e. unfold eigvals_diag. rewrite in_tabulate, Hlen. reflexivity.
Qed.


(** ** The responsibilities and the parameters of one iteration *)

Lemma sigma_sum_le (n : nat) (f g : nat -> R) :
  (forall k, (k < n)%nat -> f k <= g k) -> sigma_sum n f <= sigma_sum n g.
Proof.
  induction n as [|n IH]; intro H; simpl; [lra|].
  assert (sigma_sum n f <= sigma_sum n g) by (apply IH; intros; apply H; lia).
  assert (f n <= g n) by (apply H; lia). lra.
Qed.

Lemma sigma_sum_scal (n : nat) (c : R) (f : nat -> R) :
  sigma_sum n (fun k => c * f k) = c * sigma_sum n f.
Proof. induction n as [|n IH]; simpl; [lra | rewrite IH; lra]. Qed.

Lemma sigma_sum_nonneg (n : nat) (f : nat -> R) :
  (forall k, (k < n)%nat -> 0 <= f k) -> 0 <= sigma_sum n f.
Proof.
  intro H. rewrite <- (Rmult_0_r (INR n)), <- sigma_sum_const.
  now apply sigma_sum_le.
Qed.

Lemma sigma_sum_ge_term (n m : nat) (f : nat -> R) :
  (forall k, (k < n)%nat -> 0 <= f k) -> (m < n)%nat -> f m <= sigma_sum n f.
Proof.
  induction n as [|n IH]; intros H Hm; [lia|]. simpl.
  assert (0 <= sigma_sum n f) by (apply sigma_sum_nonneg; intros; apply H; lia).
  assert (0 <= f n) by (apply H; lia).
  destruct (Nat.eq_dec m n) as [->|Hne]; [lra|].
  assert (f m <= sigma_sum n f) by (apply IH; [intros; apply H; lia | lia]). lra.
Qed.

Section StepProperties.

Variable eigvals : matrix -> list R.
Variable mvn_pdf : vec -> vec -> matrix -> R.

(** X4: whatever the outcome of an iteration, the responsibilities it
    stores form an [M] x [N] array, and the column of every data point
    whose mixture density (the sum over the mixtures of weight times
    density) is not 0 sums to 1. *)
Theorem responsibilities_column_sums_to_one (fuel : nat) (data : matrix) (tol : R)
    (s : GMM) (n : nat) :
  (n < shape0 data)%nat ->
  mixture_density mvn_pdf s data n <> 0 ->
  exists g,
    _gamma (snd (_expectation_maximization eigvals mvn_pdf fuel data tol s)) = Some g /\
    shape0 g = _m s /\
    (forall m, (m < _m s)%nat -> length (row g m) = shape0 data) /\
    sigma_sum (_m s) (fun m => mget g m n) = 1.
Proof.
  intros Hn Hd.
  destruct (em_fields eigvals mvn_pdf fuel data tol s) as (_ & _ & _ & _ & Hg).
  destruct (shape_e_gamma mvn_pdf s data) as [Hrows Hcols].
  exists (e_gamma mvn_pdf s data).
  split; [exact Hg|]. split; [exact Hrows|]. split; [exact Hcols|].
  rewrite (sigma_sum_ext _ _
    (fun m => weighted_density mvn_pdf s data m n / mixture_density mvn_pdf s data n))
    by (intros m Hm; now apply mget_e_gamma).
  rewrite sigma_sum_div. fold (mixture_density mvn_pdf s data n).
  now field.
Qed.

(** X5: when every weight times density is positive at a data point, each
    responsibility of that point lies in (0, 1]. *)
Theorem responsibilities_in_unit_interval (fuel : nat) (data : matrix) (tol : R)
    (s : GMM) (m n : nat) :
  (m < _m s)%nat -> (n < shape0 data)%nat ->
  (forall m', (m' < _m s)%nat -> 0 < weighted_density mvn_pdf s data m' n) ->
  let g := gamma_of (snd (_expectation_maximization eigvals mvn_pdf fuel data tol s)) in
  0 < mget g m n <= 1.
Proof.
  intros Hm Hn Hpos g.
  destruct (em_fields eigvals mvn_pdf fuel data tol s) as (_ & _ & _ & _ & Hg).
  unfold g, gamma_of. rewrite Hg. rewrite mget_e_gamma by assumption.
  assert (Hmd : 0 < mixture_density mvn_pdf s data n)
    by (apply sigma_sum_pos; [lia | assumption]).
  assert (Hle : weighted_density mvn_pdf s data m n <= mixture_density mvn_pdf s data n).
  { unfold mixture_density.
    apply (sigma_sum_ge_term (_m s) m
             (fun m' => weighted_density mvn_pdf s data m' n)); [|assumption].
    intros k Hk. left. now apply Hpos. }
  split.
  - apply Rdiv_lt_0_compat; [now apply Hpos | assumption].
  - apply (Rmult_le_reg_r (mixture_density mvn_pdf s data n)); [assumption|].
    unfold Rdiv. rewrite Rmult_assoc, Rinv_l by lra. lra.
Qed.

Lemma e_gamma_positive (data : matrix) (s : GMM) (m n : nat) :
  (m < _m s)%nat -> (n < shape0 data)%nat ->
  (forall m', (m' < _m s)%nat -> 0 < weighted_density mvn_pdf s data m' n) ->
  0 < mget (e_gamma mvn_pdf s data) m n.
Proof.
  intros Hm Hn Hpos. rewrite mget_e_gamma by assumption.
  apply Rdiv_lt_0_compat; [now apply Hpos|].
  apply sigma_sum_pos; [lia | assumption].
Qed.

Lemma N_m_positive (data : matrix) (s : GMM) (m : nat) :
  (m < _m s)%nat -> (0 < shape0 data)%nat ->
  (forall m' n, (m' < _m s)%nat -> (n < shape0 data)%nat ->
     0 < weighted_density mvn_pdf s data m' n) ->
  0 < vget (m_N_m (e_gamma mvn_pdf s data)) m.
Proof.
  intros Hm HN Hpos. rewrite N_m_e_gamma by assumption.
  apply sigma_sum_pos; [assumption|]. intros n Hn.
  apply e_gamma_positive; try assumption. intros m' Hm'. now apply Hpos.
Qed.

(** X6: when every weight times density is positive, each coordinate of
    each mean that the M-step assigns lies between the least and the largest
    value of that coordinate in the data. *)
Theorem updated_means_within_data_range (fuel : nat) (data : matrix) (tol : R)
    (s : GMM) (m j : nat) (lo hi : R) :
  (m < _m s)%nat -> (j < shape1 data)%nat -> (0 < shape0 data)%nat ->
  (forall m' n, (m' < _m s)%nat -> (n < shape0 data)%nat ->
     0 < weighted_density mvn_pdf s data m' n) ->
  (forall n, (n < shape0 data)%nat -> lo <= mget data n j <= hi) ->
  lo <= mget (_mu (snd (_expectation_maximization eigvals mvn_pdf fuel data tol s))) m j
     <= hi.
Proof.
  intros Hm Hj HN Hpos Hrange.
  destruct (em_fields eigvals mvn_pdf fuel data tol s) as (_ & _ & _ & Hmu & _).
  destruct (shape_e_gamma mvn_pdf s data) as [Hrows _].
  rewrite Hmu, mget_m_mu by (rewrite ?Hrows; assumption).
  pose proof (N_m_positive data s m Hm HN Hpos) as HNm.
  set (g := e_gamma mvn_pdf s data) in *.
  assert (Hg : forall n, (n < shape0 data)%nat -> 0 < mget g m n).
  { intros n Hn. apply e_gamma_positive; try assumption.
    intros m' Hm'. now apply Hpos. }
  assert (HNm' : vget (m_N_m g) m = sigma_sum (shape0 data) (fun n => mget g m n))
    by (now apply N_m_e_gamma).
  assert (Hlo : lo * vget (m_N_m g) m
                <= sigma_sum (shape0 data) (fun n => mget g m n * mget data n j)).
  { rewrite HNm', <- sigma_sum_scal. apply sigma_sum_le. intros n Hn.
    specialize (Hg n Hn). specialize (Hrange n Hn). nra. }
  assert (Hhi : sigma_sum (shape0 data) (fun n => mget g m n * mget data n j)
                <= hi * vget (m_N_m g) m).
  { rewrite HNm', <- sigma_sum_scal. apply sigma_sum_le. intros n Hn.
    specialize (Hg n Hn). specialize (Hrange n Hn). nra. }
  split.
  - apply (Rmult_le_reg_r (vget (m_N_m g) m)); [assumption|].
    unfold Rdiv. rewrite Rmult_assoc, Rinv_l by lra. lra.
  - apply (Rmult_le_reg_r (vget (m_N_m g) m)); [assumption|].
    unfold Rdiv. rewrite Rmult_assoc, Rinv_l by lra. lra.
Qed.

(** X7: the weights and means that the M-step assigns average to the
    mean of the data: with at least one mixture and every weight times
    density positive, the sum over the mixtures of
    [weights[m] * means[m][j]] is the mean of column [j] of the data. *)
Theorem updated_mixture_mean_is_sample_mean (fuel : nat) (data : matrix) (tol : R)
    (s : GMM) (j : nat) :
  (0 < _m s)%nat -> (j < shape1 data)%nat -> (0 < shape0 data)%nat ->
  (forall m n, (m < _m s)%nat -> (n < shape0 data)%nat ->
     0 < weighted_density mvn_pdf s data m n) ->
  let s' := snd (_expectation_maximization eigvals mvn_pdf fuel data tol s) in
  sigma_sum (_m s) (fun m => vget (_pi s') m * mget (_mu s') m j)
  = sample_mean data j.
Proof.
  intros HM Hj HN Hpos s'.
  destruct (em_fields eigvals mvn_pdf fuel data tol s) as (_ & _ & Hpi & Hmu & _).
  destruct (shape_e_gamma mvn_pdf s data) as [Hrows _].
  unfold s'. rewrite Hpi, Hmu.
  set (g := e_gamma mvn_pdf s data) in *.
  assert (HNpos : 0 < INR (shape0 data)) by now apply lt_0_INR.
  rewrite (sigma_sum_ext _ _
    (fun m => sigma_sum (shape0 data) (fun n => mget g m n * mget data n j)
              / INR (shape0 data))).
  - rewrite sigma_sum_div, sigma_sum_swap. unfold sample_mean. f_equal.
    apply sigma_sum_ext. intros n Hn.
    rewrite (sigma_sum_ext _ _ (fun m => mget data n j * mget g m n))
      by (intros; lra).
    rewrite sigma_sum_scal.
    rewrite (sigma_sum_ext _ _
      (fun m => weighted_density mvn_pdf s data m n / mixture_density mvn_pdf s data n))
      by (intros m Hm; now apply mget_e_gamma).
    rewrite sigma_sum_div. fold (mixture_density mvn_pdf s data n).
    assert (0 < mixture_density mvn_pdf s data n)
      by (apply sigma_sum_pos; [assumption | intros m Hm; now apply Hpos]).
    field. lra.
  - intros m Hm.
    rewrite vget_m_pi, mget_m_mu by (rewrite ?Hrows; assumption).
    pose proof (N_m_positive data s m Hm HN Hpos) as HNm. fold g in HNm.
    field. split; lra.
Qed.

Lemma perturb_iter_nil (d j : nat) : perturb_iter d j [] = [].
Proof. induction j as [|j IH]; simpl; auto. Qed.

Lemma perturb_iter_add (d j1 j2 : nat) (a : matrix) :
  perturb_iter d j2 (perturb_iter d j1 a) = perturb_iter d (j1 + j2) a.
Proof. revert a; induction j1 as [|j1 IH]; intro a; simpl; auto. Qed.

Lemma slab_update_perturb_iter (d j k : nat) (t : tensor3) :
  slab (update k (perturb_iter d j (slab t k)) t) k = perturb_iter d j (slab t k).
Proof.
  unfold slab. destruct (Nat.lt_ge_cases k (length t)) as [H|H].
  - now apply nth_update_same.
  - rewrite update_beyond by assumption.
    rewrite (nth_overflow t) by assumption. now rewrite perturb_iter_nil.
Qed.

Lemma repair_sigma_slabs (fuel k : nat) (s : GMM) (k' : nat) :
  _d (snd (repair_sigma eigvals fuel k s)) = _d s /\
  exists j, slab (_sigma (snd (repair_sigma eigvals fuel k s))) k'
            = perturb_iter (_d s) j (slab (_sigma s) k').
Proof.
  destruct (repair_sigma_run eigvals fuel k s) as (j & _ & ->). simpl.
  split; [reflexivity|].
  destruct (Nat.eq_dec k k') as [->|Hne].
  - exists j. apply slab_update_perturb_iter.
  - exists 0%nat. simpl. unfold slab. now apply nth_update_other.
Qed.

Lemma repairs_slabs (fuel : nat) (ks : list nat) (s : GMM) (k' : nat) :
  exists j, slab (_sigma (snd (for_each ks (repair_sigma eigvals fuel) s))) k'
            = perturb_iter (_d s) j (slab (_sigma s) k').
Proof.
  revert s; induction ks as [|k ks IH]; intro s; simpl.
  - now exists 0%nat.
  - unfold bind.
    destruct (repair_sigma_slabs fuel k s k') as (Hd & j1 & H1).
    destruct (repair_sigma eigvals fuel k s) as [[[]|e|] s1]; simpl in *;
      try (now exists j1).
    destruct (IH s1) as (j2 & H2). exists (j1 + j2)%nat.
    now rewrite H2, Hd, H1, perturb_iter_add.
Qed.

(** The covariances that an iteration leaves are those of the M-step, each
    perturbed some number of times. *)
Lemma em_slabs (fuel : nat) (data : matrix) (tol : R) (s : GMM) (m : nat) :
  exists j,
    slab (_sigma (snd (_expectation_maximization eigvals mvn_pdf fuel data tol s))) m
    = perturb_iter (_d s) j (slab (_sigma (after_update mvn_pdf s data)) m).
Proof.
  rewrite em_run.
  destruct (repairs_slabs fuel (seq 0 (_m s)) (after_update mvn_pdf s data) m)
    as (j & Hj).
  exists j. destruct (for_each _ _ _) as [[[]|e|] s2]; exact Hj.
Qed.

Lemma raw_slab_square (data : matrix) (s : GMM) (m : nat) :
  (m < _m s)%nat ->
  is_square (shape1 data) (slab (_sigma (after_update mvn_pdf s data)) m).
Proof.
  intro Hm. destruct (shape_e_gamma mvn_pdf s data) as [Hrows _].
  assert (Hlt : (m < shape0 (m_mu (e_gamma mvn_pdf s data) data))%nat)
    by (now rewrite shape0_m_mu, Hrows).
  change (_sigma (after_update mvn_pdf s data))
    with (m_sigma (e_gamma mvn_pdf s data) (m_mu (e_gamma mvn_pdf s data) data) data).
  unfold m_sigma, slab. rewrite nth_tabulate by exact Hlt.
  split; [apply length_tabulate|].
  intros i Hi. unfold row. rewrite nth_tabulate by assumption. apply length_tabulate.
Qed.

Lemma raw_sigma_entry (data : matrix) (s : GMM) (m i j : nat) :
  (m < _m s)%nat -> (i < shape1 data)%nat -> (j < shape1 data)%nat ->
  let g := e_gamma mvn_pdf s data in
  let mu := m_mu g data in
  mget (slab (_sigma (after_update mvn_pdf s data)) m) i j
  = sigma_sum (shape0 data) (fun n =>
      mget g m n * ((mget data n i - mget mu m i) * (mget data n j - mget mu m j)))
    / vget (m_N_m g) m.
Proof.
  intros Hm Hi Hj g mu. destruct (shape_e_gamma mvn_pdf s data) as [Hrows _].
  change (mget (slab ?t m) i j) with (tget t m i j).
  change (_sigma (after_update mvn_pdf s data)) with (m_sigma g mu data).
  apply tget_m_sigma; try assumption. unfold mu, g. now rewrite shape0_m_mu, Hrows.
Qed.

(** X8: whatever the outcome of an iteration on data of the model's
    width, every covariance it leaves is symmetric. *)
Theorem covariances_stay_symmetric (fuel : nat) (data : matrix) (tol : R)
    (s : GMM) (m i j : nat) :
  shape1 data = _d s ->
  (m < _m s)%nat -> (i < _d s)%nat -> (j < _d s)%nat ->
  let s' := snd (_expectation_maximization eigvals mvn_pdf fuel data tol s) in
  tget (_sigma s') m i j = tget (_sigma s') m j i.
Proof.
  intros Hd Hm Hi Hj s'. unfold s', tget.
  destruct (em_slabs fuel data tol s m) as (k & ->).
  pose proof (raw_slab_square data s m Hm) as Hsq. rewrite Hd in Hsq.
  rewrite !mget_perturb_iter by assumption.
  rewrite !raw_sigma_entry by (rewrite ?Hd; assumption).
  rewrite (Nat.eqb_sym j i). f_equal. f_equal.
  apply sigma_sum_ext. intros n Hn. lra.
Qed.

(** X9: when every weight times density is positive, every variance (a
    diagonal entry of a covariance) that an iteration on data of the model's
    width leaves is non-negative, whatever the outcome of the iteration. *)
Theorem variances_are_nonnegative (fuel : nat) (data : matrix) (tol : R)
    (s : GMM) (m i : nat) :
  shape1 data = _d s ->
  (m < _m s)%nat -> (i < _d s)%nat -> (0 < shape0 data)%nat ->
  (forall m' n, (m' < _m s)%nat -> (n < shape0 data)%nat ->
     0 < weighted_density mvn_pdf s data m' n) ->
  0 <= tget (_sigma (snd (_expectation_maximization eigvals mvn_pdf fuel data tol s)))
         m i i.
Proof.
  intros Hd Hm Hi HN Hpos. unfold tget.
  destruct (em_slabs fuel data tol s m) as (k & ->).
  pose proof (raw_slab_square data s m Hm) as Hsq. rewrite Hd in Hsq.
  rewrite mget_perturb_iter, Nat.eqb_refl by assumption.
  rewrite raw_sigma_entry by (rewrite ?Hd; assumption).
  pose proof (N_m_positive data s m Hm HN Hpos) as HNm.
  assert (0 < 1.05 ^ k) by (apply pow_lt; lra).
  apply Rmult_le_pos; [lra|].
  apply Rmult_le_pos; [|left; now apply Rinv_0_lt_compat].
  apply sigma_sum_nonneg. intros n Hn.
  assert (0 < mget (e_gamma mvn_pdf s data) m n).
  { apply e_gamma_positive; try assumption. intros m' Hm'. now apply Hpos. }
  apply Rmult_le_pos; [lra|]. apply Rle_0_sqr.
Qed.

(** X10: with one mixture, an iteration on data with at least one row
    where the weighted density is nowhere 0 assigns, whatever the mean and
    the covariance it started from, the weight 1, the mean of the data and,
    before any repair, the covariance of the data about that mean (divided
    by the number of rows). *)
Theorem single_mixture_update_is_sample_statistics (data : matrix) (s : GMM)
    (i j : nat) :
  _m s = 1%nat -> (0 < shape0 data)%nat ->
  (i < shape1 data)%nat -> (j < shape1 data)%nat ->
  (forall n, (n < shape0 data)%nat -> weighted_density mvn_pdf s data 0 n <> 0) ->
  let s' := snd (em_update mvn_pdf data s) in
  vget (_pi s') 0 = 1 /\
  mget (_mu s') 0 j = sample_mean data j /\
  tget (_sigma s') 0 i j = sample_cov data i j.
Proof.
  intros HM HN Hi Hj Hnz s'. unfold s'. rewrite em_update_run.
  destruct (shape_e_gamma mvn_pdf s data) as [Hrows _].
  set (g := e_gamma mvn_pdf s data) in *.
  assert (HNpos : 0 < INR (shape0 data)) by now apply lt_0_INR.
  assert (Hg : forall n, (n < shape0 data)%nat -> mget g 0 n = 1).
  { intros n Hn. unfold g. rewrite mget_e_gamma by (rewrite ?HM; lia).
    unfold mixture_density. rewrite HM. simpl. field.
    replace (0 + weighted_density mvn_pdf s data 0 n)
      with (weighted_density mvn_pdf s data 0 n) by lra.
    now apply Hnz. }
  assert (HNm : vget (m_N_m g) 0 = INR (shape0 data)).
  { unfold g. rewrite N_m_e_gamma by (rewrite HM; lia).
    rewrite (sigma_sum_ext _ (fun n => mget (e_gamma mvn_pdf s data) 0 n)
               (fun _ => 1) Hg), sigma_sum_const. lra. }
  assert (Hmu : forall c, (c < shape1 data)%nat ->
            mget (m_mu g data) 0 c = sample_mean data c).
  { intros c Hc. rewrite mget_m_mu by (rewrite ?Hrows, ?HM; lia || assumption).
    rewrite HNm. unfold sample_mean. f_equal.
    apply sigma_sum_ext. intros n Hn. rewrite (Hg n Hn). lra. }
  unfold after_update; simpl. fold g.
  split; [|split].
  - rewrite vget_m_pi by (rewrite Hrows, HM; lia). rewrite HNm. field. lra.
  - now apply Hmu.
  - rewrite tget_m_sigma by (rewrite ?shape0_m_mu, ?Hrows, ?HM; lia || assumption).
    rewrite HNm, (Hmu i Hi), (Hmu j Hj). unfold sample_cov. f_equal.
    apply sigma_sum_ext. intros n Hn. rewrite (Hg n Hn). lra.
Qed.

End StepProperties.


Lemma new_model_densities_pos (m d : nat) (randn data : matrix) (m' n : nat) :
  (m' < m)%nat ->
  0 < weighted_density mvn_pdf_diag (new_model m d randn) data m' n.
Proof.
  intro Hm. destruct (new_model_valid m d randn) as (Hw & Hcov & _); [lia|].
  now apply (weighted_density_pos eigvals_diag mvn_pdf_diag mvn_pdf_diag_pos).
Qed.

Lemma data_two_shape : shape0 data_two = 2%nat /\ shape1 data_two = 1%nat.
Proof. split; reflexivity. Qed.

Lemma data_two_range (n : nat) : (n < shape0 data_two)%nat -> 0 <= mget data_two n 0 <= 10.
Proof.
  intro Hn. destruct n as [|[|n]]; [| |simpl in Hn; lia];
    unfold mget, row, vget; simpl; lra.
Qed.

Lemma responsibilities_column_sums_to_one_witness :
  exists g,
    _gamma (snd (_expectation_maximization eigvals_diag mvn_pdf_diag 0 data_two 0.001
                   (new_model 2 1 [[0]; [1]]))) = Some g /\
    sigma_sum 2 (fun m => mget g m 0) = 1.
Proof.
  destruct (responsibilities_column_sums_to_one eigvals_diag mvn_pdf_diag 0 data_two
              0.001 (new_model 2 1 [[0]; [1]]) 0) as (g & Hg & _ & _ & Hsum).
  - simpl. lia.
  - apply Rgt_not_eq. apply sigma_sum_pos; [simpl; lia|].
    intros m Hm. now apply new_model_densities_pos.
  - exists g. split; [exact Hg | exact Hsum].
Defined.

Lemma responsibilities_in_unit_interval_witness :
  0 < mget (gamma_of (snd (_expectation_maximization eigvals_diag mvn_pdf_diag 0
                             data_two 0.001 (new_model 2 1 [[0]; [1]])))) 0 0 <= 1.
Proof.
  apply (responsibilities_in_unit_interval eigvals_diag mvn_pdf_diag 0 data_two 0.001
           (new_model 2 1 [[0]; [1]]) 0 0).
  - simpl. lia.
  - simpl. lia.
  - intros m' Hm'. now apply new_model_densities_pos.
Defined.

Lemma updated_means_within_data_range_witness :
  0 <= mget (_mu (snd (_expectation_maximization eigvals_diag mvn_pdf_diag 0 data_two
                         0.001 (new_model 2 1 [[0]; [1]])))) 1 0 <= 10.
Proof.
  apply (updated_means_within_data_range eigvals_diag mvn_pdf_diag 0 data_two 0.001
           (new_model 2 1 [[0]; [1]]) 1 0 0 10).
  - simpl. lia.
  - rewrite (proj2 data_two_shape). lia.
  - rewrite (proj1 data_two_shape). lia.
  - intros m' n Hm' _. now apply new_model_densities_pos.
  - exact data_two_range.
Defined.

Lemma updated_mixture_mean_is_sample_mean_witness :
  let s' := snd (_expectation_maximization eigvals_diag mvn_pdf_diag 0 data_two 0.001
                   (new_model 2 1 [[0]; [1]])) in
  sigma_sum 2 (fun m => vget (_pi s') m * mget (_mu s') m 0) = sample_mean data_two 0.
Proof.
  apply (updated_mixture_mean_is_sample_mean eigvals_diag mvn_pdf_diag 0 data_two 0.001
           (new_model 2 1 [[0]; [1]]) 0).
  - simpl. lia.
  - rewrite (proj2 data_two_shape). lia.
  - rewrite (proj1 data_two_shape). lia.
  - intros m n Hm _. now apply new_model_densities_pos.
Defined.

Lemma covariances_stay_symmetric_witness :
  let s' := snd (_expectation_maximization eigvals_diag mvn_pdf_diag 3 refit_data 0.001
                   (new_model 2 2 [[0; 0]; [1; 1]])) in
  tget (_sigma s') 1 0 1 = tget (_sigma s') 1 1 0.
Proof.
  apply (covariances_stay_symmetric eigvals_diag mvn_pdf_diag 3 refit_data 0.001
           (new_model 2 2 [[0; 0]; [1; 1]]) 1 0 1); try reflexivity; simpl; lia.
Defined.

Lemma variances_are_nonnegative_witness :
  0 <= tget (_sigma (snd (_expectation_maximization eigvals_diag mvn_pdf_diag 3
                            refit_data 0.001 (new_model 2 2 [[0; 0]; [1; 1]])))) 1 0 0.
Proof.
  apply (variances_are_nonnegative eigvals_diag mvn_pdf_diag 3 refit_data 0.001
           (new_model 2 2 [[0; 0]; [1; 1]]) 1 0); try reflexivity; try (simpl; lia).
  intros m' n Hm' _. now apply new_model_densities_pos.
Defined.

Lemma single_mixture_update_is_sample_statistics_witness :
  let s' := snd (em_update mvn_pdf_diag data_two (new_model 1 1 [[3]])) in
  vget (_pi s') 0 = 1 /\
  mget (_mu s') 0 0 = sample_mean data_two 0 /\
  tget (_sigma s') 0 0 0 = sample_cov data_two 0 0.
Proof.
  apply (single_mixture_update_is_sample_statistics mvn_pdf_diag data_two
           (new_model 1 1 [[3]]) 0 0).
  - reflexivity.
  - rewrite (proj1 data_two_shape). lia.
  - rewrite (proj2 data_two_shape). lia.
  - rewrite (proj2 data_two_shape). lia.
  - intros n _. apply Rgt_not_eq. apply new_model_densities_pos. lia.
Defined.

(** ** The loop of [fit], further *)

Section FitProperties.

Variable eigvals : matrix -> list R.
Variable mvn_pdf : vec -> vec -> matrix -> R.
Variable kmeans : matrix -> nat -> matrix.

(** X11: a call of [fit] that returns has run at most [max_steps]
    iterations (none when [max_steps] is negative). *)
Theorem fit_runs_at_most_max_steps (fuel : nat) (data : matrix) (max_steps : Z)
    (tol : R) (km : bool) (s : GMM) (n : Z) :
  fst (fit eigvals mvn_pdf kmeans fuel data max_steps tol km s) = Ok n ->
  (0 <= n <= Z.max 0 max_steps)%Z.
Proof. intro H. unfold fit in H. now apply fit_while_steps in H. Qed.

(** X12: on a model that has not been fitted, with at least one data row,
    a cap of at least one step and a tolerance of at most 10^6, a call of
    [fit] that returns has run at least one iteration. *)
Theorem new_model_fit_iterates (fuel : nat) (data : matrix) (max_steps : Z)
    (tol : R) (km : bool) (m d : nat) (randn : matrix) (n : Z) :
  (0 < shape0 data)%nat -> (1 <= max_steps)%Z -> tol <= 1000000 ->
  fst (fit eigvals mvn_pdf kmeans fuel data max_steps tol km (new_model m d randn))
  = Ok n ->
  (1 <= n <= max_steps)%Z.
Proof.
  intros HN Hmax _ Hrun.
  now apply (fit_fresh_iterates eigvals mvn_pdf kmeans fuel data max_steps tol km
               (new_model m d randn) n eq_refl HN Hmax Hrun).
Qed.

Lemma fit_while_out_of_fuel (fuel inner : nat) (data : matrix) (max_steps : Z)
    (tol : R) (km : bool) (step : Z) (post_prev : R) (s : GMM) :
  (Z.to_nat (max_steps - step) <= fuel)%nat ->
  fst (fit_while eigvals mvn_pdf kmeans fuel inner data max_steps tol km step
         post_prev s) = OutOfFuel ->
  exists s0, fst (_expectation_maximization eigvals mvn_pdf inner data tol s0) = OutOfFuel.
Proof.
  revert step post_prev s; induction fuel as [|f IH]; intros step post_prev s Hfuel;
    rewrite fit_while_eq;
    destruct (Rgtb _ tol); destruct (step <? max_steps)%Z eqn:Es; simpl;
    try discriminate; apply Z.ltb_lt in Es; try lia.
  match goal with
  | |- context [_expectation_maximization ?a ?b ?c ?d ?t ?x] =>
      destruct (_expectation_maximization a b c d t x) as [[[]|e|] s2] eqn:Erun
  end; simpl; try discriminate.
  - apply IH. lia.
  - intros _. eexists. rewrite Erun. reflexivity.
Qed.

(** X13: the loop of [fit] itself ends within the cap: with fuel for
    [max_steps] iterations, [fit] can only be still running because the
    covariance repair of one of its iterations is. *)
Theorem fit_hangs_only_in_the_repair (fuel : nat) (data : matrix) (max_steps : Z)
    (tol : R) (km : bool) (s : GMM) :
  (Z.to_nat max_steps <= fuel)%nat ->
  fst (fit eigvals mvn_pdf kmeans fuel data max_steps tol km s) = OutOfFuel ->
  exists s0, fst (_expectation_maximization eigvals mvn_pdf fuel data tol s0) = OutOfFuel.
Proof.
  intros Hfuel Hrun. unfold fit in Hrun.
  apply (fit_while_out_of_fuel fuel fuel data max_steps tol km 0
           ((tol + 1.0) * INR (shape0 data)) s); [|exact Hrun].
  rewrite Z.sub_0_r. exact Hfuel.
Qed.

Lemma fit_while_kmeans_after_first (fuel inner : nat) (data : matrix) (max_steps : Z)
    (tol : R) (step : Z) (post_prev : R) (s : GMM) :
  (1 <= step)%Z ->
  fit_while eigvals mvn_pdf kmeans fuel inner data max_steps tol true step post_prev s
  = fit_while eigvals mvn_pdf kmeans fuel inner data max_steps tol false step post_prev s.
Proof.
  revert step post_prev s; induction fuel as [|f IH]; intros step post_prev s Hstep;
    rewrite !(fit_while_eq _ _ _ _ _ _ _ _ _ step); [reflexivity|].
  replace (step =? 0)%Z with false by (symmetry; apply Z.eqb_neq; lia).
  simpl.
  destruct (Rgtb _ tol && (step <? max_steps)%Z); [|reflexivity].
  destruct (_expectation_maximization _ _ _ _ _ _) as [[[]|e|] s2]; try reflexivity.
  apply IH. lia.
Qed.

(** X14: the k-means initialisation is done once, before the first
    iteration: [fit] with [use_kmeans] on a model is, when its loop is
    entered, [fit] without it on the model whose means are the cluster
    centers, and otherwise returns the model as it is. *)
Theorem kmeans_initialisation_is_one_shot (fuel : nat) (data : matrix)
    (max_steps : Z) (tol : R) (s : GMM) :
  (0 < fuel)%nat ->
  fit eigvals mvn_pdf kmeans fuel data max_steps tol true s
  = if Rgtb (Rabs (_post s - (tol + 1.0) * INR (shape0 data)) / INR (shape0 data)) tol
       && (0 <? max_steps)%Z
    then fit eigvals mvn_pdf kmeans fuel data max_steps tol false
           (with_mu s (kmeans data (_m s)))
    else (Ok 0%Z, s).
Proof.
  intro Hfuel. destruct fuel as [|f]; [lia|].
  unfold fit. rewrite !(fit_while_eq _ _ _ (S f)).
  change (_post (with_mu s (kmeans data (_m s)))) with (_post s).
  destruct (Rgtb _ tol && (0 <? max_steps)%Z); [|reflexivity].
  simpl.
  destruct (_expectation_maximization _ _ _ _ _ _) as [[[]|e|] s2]; try reflexivity.
  apply fit_while_kmeans_after_first. lia.
Qed.

Lemma fit_while_sizes (fuel inner : nat) (data : matrix) (max_steps : Z)
    (tol : R) (km : bool) (step : Z) (post_prev : R) (s : GMM) :
  _m (snd (fit_while eigvals mvn_pdf kmeans fuel inner data max_steps tol km step
             post_prev s)) = _m s /\
  _d (snd (fit_while eigvals mvn_pdf kmeans fuel inner data max_steps tol km step
             post_prev s)) = _d s.
Proof.
  revert step post_prev s; induction fuel as [|f IH]; intros step post_prev s;
    rewrite fit_while_eq;
    destruct (Rgtb _ tol && (step <? max_steps)%Z); simpl; auto.
  set (s1 := if (step =? 0)%Z && km then with_mu s (kmeans data (_m s)) else s).
  assert (Hs1 : _m s1 = _m s /\ _d s1 = _d s)
    by (unfold s1; destruct ((step =? 0)%Z && km); auto).
  destruct (em_fields eigvals mvn_pdf inner data tol s1) as (Hm & Hd & _).
  destruct (_expectation_maximization eigvals mvn_pdf inner data tol s1)
    as [[[]|e|] s2]; simpl in *.
  - destruct (IH (step + 1)%Z (_post s1) s2) as [IHm IHd].
    split; [rewrite IHm | rewrite IHd]; intuition congruence.
  - intuition congruence.
  - intuition congruence.
Qed.

(** X15: [fit] never changes the mixture count or the dimensionality of
    the model, whatever it returns and also while it is still running. *)
Theorem fit_keeps_the_sizes (fuel : nat) (data : matrix) (max_steps : Z)
    (tol : R) (km : bool) (s : GMM) :
  _m (snd (fit eigvals mvn_pdf kmeans fuel data max_steps tol km s)) = _m s /\
  _d (snd (fit eigvals mvn_pdf kmeans fuel data max_steps tol km s)) = _d s.
Proof. apply fit_while_sizes. Qed.

(** X16: [fit] returns before the cap only when converged: if it returns
    after fewer than [max_steps] iterations, either it ran none and the
    first comparison against the seed [(tol + 1) * N] failed, or its last
    iteration changed the log-posterior by at most [tol * N]. *)
Theorem fit_stops_early_only_when_converged (fuel : nat) (data : matrix)
    (max_steps : Z) (tol : R) (km : bool) (s s' : GMM) (n : Z) :
  fit eigvals mvn_pdf kmeans fuel data max_steps tol km s = (Ok n, s') ->
  (n < max_steps)%Z ->
  (n = 0%Z /\ s' = s /\
   Rabs (_post s - (tol + 1.0) * INR (shape0 data)) / INR (shape0 data) <= tol) \/
  ((0 < n)%Z /\
   exists s0,
     _expectation_maximization eigvals mvn_pdf fuel data tol s0 = (Ok tt, s') /\
     Rabs (_post s' - _post s0) / INR (shape0 data) <= tol).
Proof. intros Hrun Hn. now apply (fit_while_early_stop _ _ _ _ _ _ _ _ _ _ _ _ _ _ Hrun Hn). Qed.

End FitProperties.

Lemma fit_collapsed_hangs :
  fst (fit eigvals_diag mvn_pdf_diag kmeans_first 1 data_collapsed 1 0.001 false
         (new_model 1 1 [[0]])) = OutOfFuel.
Proof.
  unfold fit. rewrite fit_while_eq. rewrite Rgtb_true.
  - change (true && (0 <? 1)%Z) with true.
    change ((0 =? 0)%Z && false) with false. cbv beta iota zeta.
    pose proof (em_collapsed_diverges 1 0.001 0) as H.
    destruct (_expectation_maximization _ _ _ _ _ _) as [[[]|e|] s2]; simpl in *;
      try discriminate. reflexivity.
  - simpl. unfold Rabs. destruct (Rcase_abs _); lra.
Qed.

Lemma fit_runs_at_most_max_steps_witness :
  exists s',
    fit eigvals_diag mvn_pdf_diag kmeans_first 1 data_two 1 0.001 false
      (new_model 1 1 [[0]]) = (Ok 1%Z, s') /\
    (0 <= 1 <= Z.max 0 1)%Z.
Proof.
  destruct (fit_two_points 0.001 0) as [s' Hrun]. exists s'. split; [exact Hrun|].
  apply (fit_runs_at_most_max_steps eigvals_diag mvn_pdf_diag kmeans_first 1 data_two
           1 0.001 false (new_model 1 1 [[0]]) 1).
  rewrite Hrun. reflexivity.
Defined.

Lemma new_model_fit_iterates_witness :
  exists s',
    fit eigvals_diag mvn_pdf_diag kmeans_first 1 data_two 1 0.001 false
      (new_model 1 1 [[0]]) = (Ok 1%Z, s') /\
    (1 <= 1 <= 1)%Z.
Proof.
  destruct (fit_two_points 0.001 0) as [s' Hrun]. exists s'. split; [exact Hrun|].
  apply (new_model_fit_iterates eigvals_diag mvn_pdf_diag kmeans_first 1 data_two
           1 0.001 false 1 1 [[0]] 1).
  - rewrite (proj1 data_two_shape). lia.
  - lia.
  - lra.
  - rewrite Hrun. reflexivity.
Defined.

Lemma fit_hangs_only_in_the_repair_witness :
  exists s0,
    fst (_expectation_maximization eigvals_diag mvn_pdf_diag 1 data_collapsed 0.001 s0)
    = OutOfFuel.
Proof.
  apply (fit_hangs_only_in_the_repair eigvals_diag mvn_pdf_diag kmeans_first 1
           data_collapsed 1 0.001 false (new_model 1 1 [[0]])).
  - simpl. lia.
  - exact fit_collapsed_hangs.
Defined.

Lemma kmeans_initialisation_is_one_shot_witness :
  fit eigvals_diag mvn_pdf_diag kmeans_first 1 data_two 1 0.001 true (new_model 1 1 [[0]])
  = if Rgtb (Rabs (_post (new_model 1 1 [[0]]) - (0.001 + 1.0) * INR (shape0 data_two))
             / INR (shape0 data_two)) 0.001
       && (0 <? 1)%Z
    then fit eigvals_diag mvn_pdf_diag kmeans_first 1 data_two 1 0.001 false
           (with_mu (new_model 1 1 [[0]])
              (kmeans_first data_two (_m (new_model 1 1 [[0]]))))
    else (Ok 0%Z, new_model 1 1 [[0]]).
Proof.
  apply (kmeans_initialisation_is_one_shot eigvals_diag mvn_pdf_diag kmeans_first 1
           data_two 1 0.001 (new_model 1 1 [[0]])).
  lia.
Defined.

Lemma refit_run :
  fit eigvals_diag mvn_pdf_diag kmeans_first 1 refit_data 5 0.01 false refit_model
  = (Ok 0%Z, refit_model).
Proof. apply fit_skips_in_band; simpl; [lia | lra]. Qed.

Lemma fit_stops_early_only_when_converged_witness :
  (0%Z = 0%Z /\ refit_model = refit_model /\
   Rabs (_post refit_model - (0.01 + 1.0) * INR (shape0 refit_data))
   / INR (shape0 refit_data) <= 0.01) \/
  ((0 < 0)%Z /\
   exists s0,
     _expectation_maximization eigvals_diag mvn_pdf_diag 1 refit_data 0.01 s0
     = (Ok tt, refit_model) /\
     Rabs (_post refit_model - _post s0) / INR (shape0 refit_data) <= 0.01).
Proof.
  apply (fit_stops_early_only_when_converged eigvals_diag mvn_pdf_diag kmeans_first 1
           refit_data 5 0.01 false refit_model refit_model 0).
  - exact refit_run.
  - lia.
Defined.

(** ** The density queries, further *)

Lemma mget_mat_map2 (f : R -> R -> R) (a b : matrix) (r c : nat) :
  (r < length a)%nat -> (r < length b)%nat ->
  (c < length (row a r))%nat -> (c < length (row b r))%nat ->
  mget (mat_map2 f a b) r c = f (mget a r c) (mget b r c).
Proof.
  intros Ha Hb Hca Hcb. unfold mget. rewrite row_mat_map2 by assumption.
  now apply vget_vec_map2_lt.
Qed.

Lemma mget_grid (h : R -> R -> R) (x_i x_j : vec) (r c : nat) :
  (r < length x_j)%nat -> (c < length x_i)%nat ->
  mget (map (fun y => map (fun x => h x y) x_i) x_j) r c = h (vget x_i c) (vget x_j r).
Proof.
  intros Hr Hc. unfold mget, row, vec in *.
  rewrite (nth_map_lt _ x_j r (@nil R) 0) by assumption.
  unfold vget at 1. now rewrite (nth_map_lt _ x_i c 0 0).
Qed.

Lemma row_grid (h : R -> R -> R) (x_i x_j : vec) (r : nat) :
  (r < length x_j)%nat ->
  length (row (map (fun y => map (fun x => h x y) x_i) x_j) r) = length x_i.
Proof.
  intro Hr. unfold row, vec in *.
  rewrite (nth_map_lt _ x_j r (@nil R) 0) by assumption.
  apply length_map.
Qed.

Lemma mget_zeros (a b r c : nat) :
  (r < a)%nat -> mget (repeat (repeat 0 b) a) r c = 0.
Proof.
  intro Hr. unfold mget, row, vget. rewrite nth_repeat_lt by assumption.
  apply nth_repeat.
Qed.

Lemma row_zeros (a b r : nat) :
  (r < a)%nat -> length (row (repeat (repeat 0 b) a) r) = b.
Proof.
  intro Hr. unfold row. rewrite nth_repeat_lt by assumption. apply repeat_length.
Qed.

Section JointDensity.

Variable eigvals : matrix -> list R.
Variable mvn_pdf : vec -> vec -> matrix -> R.

Lemma repair_when_pd (fuel d : nat) (cov : matrix) :
  _is_pos_def eigvals cov = true -> repair eigvals fuel d cov = Ok cov.
Proof. intro H. destruct fuel; simpl; now rewrite H. Qed.

Lemma multivariate_loop_run (fuel : nat) (ms : list nat) (i j : nat)
    (ra_i ra_j : R) (mu_i mu_j x_i x_j : vec) (distr0 distr : matrix) (s s' : GMM) :
  length distr0 = length x_j ->
  (forall r, (r < length x_j)%nat -> length (row distr0 r) = length x_i) ->
  multivariate_loop eigvals mvn_pdf fuel ms i j ra_i ra_j mu_i mu_j x_i x_j distr0 s
  = (Ok distr, s') ->
  (forall m, In m ms ->
     exists c, repair eigvals fuel 2 (rescaled_block s m i j ra_i ra_j) = Ok c) /\
  length distr = length x_j /\
  (forall r, (r < length x_j)%nat -> length (row distr r) = length x_i) /\
  forall r c, (r < length x_j)%nat -> (c < length x_i)%nat ->
    mget distr r c
    = mget distr0 r c
      + Rsum (map (fun m =>
                vget (_pi s) m
                * mvn_pdf [vget x_i c; vget x_j r] [vget mu_i m; vget mu_j m]
                    (repaired_block eigvals fuel s m i j ra_i ra_j)) ms).
Proof.
  revert distr0; induction ms as [|m ms IH]; intros distr0 Hlen Hrows; simpl.
  - intro H. inversion H; subst.
    split; [intros m []|]. split; [assumption|]. split; [assumption|].
    intros; lra.
  - unfold bind at 1. unfold get. unfold bind at 1. unfold lift.
    destruct (repair eigvals fuel 2 _) as [cov|e|] eqn:Erep; try discriminate.
    intro Hrun.
    set (term := fun x y => vget (_pi s) m * mvn_pdf [x; y] [vget mu_i m; vget mu_j m] cov)
      in *.
    assert (Hlen1 : length (mat_map2 Rplus distr0
                      (map (fun y => map (fun x => term x y) x_i) x_j)) = length x_j)
      by (rewrite length_mat_map2, length_map, Hlen; lia).
    assert (Hrows1 : forall r, (r < length x_j)%nat ->
              length (row (mat_map2 Rplus distr0
                            (map (fun y => map (fun x => term x y) x_i) x_j)) r)
              = length x_i).
    { intros r Hr. rewrite row_mat_map2 by (rewrite ?length_map; lia).
      rewrite length_vec_map2_eq, Hrows, row_grid by assumption. lia. }
    destruct (IH _ Hlen1 Hrows1 Hrun) as (Hrep & Hl & Hr & Hget).
    split; [|split; [assumption|split; [assumption|]]].
    + intros m' [<-|Hin]; [now exists cov | now apply Hrep].
    + intros r c Hr' Hc'. rewrite Hget by assumption.
      rewrite mget_mat_map2
        by (rewrite ?length_map, ?Hrows, ?row_grid; assumption || lia).
      rewrite mget_grid by assumption.
      assert (Hrb : repaired_block eigvals fuel s m i j ra_i ra_j = cov).
      { unfold repaired_block.
        change (repair eigvals fuel 2 (rescaled_block s m i j ra_i ra_j))
          with (repair eigvals fuel 2
                  [[tget (_sigma s) m i i * (ra_i * (ra_i * 1));
                    tget (_sigma s) m i j * ra_i * ra_j];
                   [tget (_sigma s) m i j * ra_i * ra_j;
                    tget (_sigma s) m j j * (ra_j * (ra_j * 1))]]).
        now rewrite Erep. }
      rewrite Hrb. unfold term. lra.
Qed.

Lemma multivariate_loop_returns (fuel : nat) (ms : list nat) (i j : nat)
    (ra_i ra_j : R) (mu_i mu_j x_i x_j : vec) (distr0 : matrix) (s : GMM) :
  (forall m, In m ms ->
     _is_pos_def eigvals (rescaled_block s m i j ra_i ra_j) = true) ->
  exists distr,
    multivariate_loop eigvals mvn_pdf fuel ms i j ra_i ra_j mu_i mu_j x_i x_j distr0 s
    = (Ok distr, s).
Proof.
  revert distr0; induction ms as [|m ms IH]; intros distr0 Hpd; simpl.
  - now exists distr0.
  - unfold bind at 1. unfold get. unfold bind at 1. unfold lift.
    rewrite repair_when_pd by (exact (Hpd m (or_introl eq_refl))).
    apply IH. intros m' Hin. apply Hpd. now right.
Qed.

(** X17: when [get_multivariate] returns, the repair of every rescaled
    2 x 2 block has returned, the three arrays are [num_samples] x
    [num_samples], [x] repeats the abscissas of the first interval along each
    row, [y] repeats those of the second along each column, and the density
    at a grid point is the sum over the mixtures of the weight times the
    two-dimensional normal density with the rescaled mean and the repaired
    block. *)
Theorem get_multivariate_is_weighted_normal_sum (fuel i j : nat)
    (intervals plot_intervals : (R * R) * (R * R)) (scaling_factor : R)
    (num_samples : nat) (s s' : GMM) (x y distr : matrix) :
  let ra_i := (snd (fst intervals) - fst (fst intervals)) / (2.0 * scaling_factor) in
  let ra_j := (snd (snd intervals) - fst (snd intervals)) / (2.0 * scaling_factor) in
  let c_i := (fst (fst intervals) + snd (fst intervals)) / 2.0 in
  let c_j := (fst (snd intervals) + snd (snd intervals)) / 2.0 in
  let x_i := linspace (fst (fst plot_intervals)) (snd (fst plot_intervals)) num_samples in
  let x_j := linspace (fst (snd plot_intervals)) (snd (snd plot_intervals)) num_samples in
  (_m s <= length (_mu s))%nat ->
  get_multivariate eigvals mvn_pdf fuel i j intervals plot_intervals scaling_factor
    num_samples s = (Ok (x, y, distr), s') ->
  (forall m, (m < _m s)%nat ->
     exists c, repair eigvals fuel 2 (rescaled_block s m i j ra_i ra_j) = Ok c) /\
  length x = num_samples /\ length y = num_samples /\ length distr = num_samples /\
  forall r c, (r < num_samples)%nat -> (c < num_samples)%nat ->
    length (row x r) = num_samples /\ length (row y r) = num_samples /\
    length (row distr r) = num_samples /\
    mget x r c = vget x_i c /\
    mget y r c = vget x_j r /\
    mget distr r c
    = sigma_sum (_m s) (fun m =>
        vget (_pi s) m
        * mvn_pdf [vget x_i c; vget x_j r]
            [ra_i * mget (_mu s) m i + c_i; ra_j * mget (_mu s) m j + c_j]
            (repaired_block eigvals fuel s m i j ra_i ra_j)).
Proof.
  intros ra_i ra_j c_i c_j x_i x_j Hmu Hrun.
  assert (Hxi : length x_i = num_samples) by apply length_tabulate.
  assert (Hxj : length x_j = num_samples) by apply length_tabulate.
  unfold get_multivariate in Hrun. unfold bind at 1 in Hrun. unfold get in Hrun.
  cbv beta iota zeta in Hrun. unfold bind in Hrun.
  fold ra_i ra_j c_i c_j x_i x_j in Hrun.
  destruct (multivariate_loop _ _ _ _ _ _ _ _ _ _ _ _ _ s) as [[d0|e|] s1] eqn:Eloop;
    try discriminate.
  unfold ret in Hrun. inversion Hrun; subst x y distr s'. clear Hrun.
  apply multivariate_loop_run in Eloop;
    [| now rewrite repeat_length
     | intros r Hr; rewrite row_zeros by (now rewrite <- Hxj); now rewrite Hxi ].
  destruct Eloop as (Hrep & Hl & Hr & Hget).
  split; [intros m Hm; apply Hrep, in_seq; lia|].
  split; [now rewrite length_map|]. split; [now rewrite length_map|].
  split; [now rewrite Hl|].
  intros r c Hr' Hc'.
  assert (Hxrow : row (map (fun _ : R => x_i) x_j) r = x_i).
  { unfold row, vec in *. now rewrite (nth_map_lt _ x_j r (@nil R) 0) by lia. }
  split; [rewrite Hxrow; exact Hxi|].
  split; [rewrite (row_grid (fun _ b => b)) by lia; exact Hxi|].
  split; [rewrite Hr by lia; exact Hxi|].
  split; [unfold mget; now rewrite Hxrow|].
  split; [apply (mget_grid (fun _ b => b)); lia|].
  rewrite Hget by lia. rewrite mget_zeros by assumption.
  change (map ?f (seq 0 (_m s))) with (tabulate (_m s) f).
  rewrite Rsum_tabulate, Rplus_0_l.
  apply sigma_sum_ext. intros m Hm.
  unfold vget at 4 6.
  rewrite !(nth_map_lt _ (_mu s) m 0 []) by lia. reflexivity.
Qed.

(** X18: a rescaled 2 x 2 block that passes [_is_pos_def] is not
    perturbed: the repair returns it as it is with no perturbation at all,
    whatever the fuel; when every block passes and [get_multivariate]
    returns, the density at a grid point is the sum over the mixtures of the
    weight times the two-dimensional normal density with the rescaled mean
    and the rescaled block itself. *)
Theorem get_multivariate_keeps_blocks_that_pass (fuel i j : nat)
    (intervals plot_intervals : (R * R) * (R * R)) (scaling_factor : R)
    (num_samples : nat) (s : GMM) :
  let ra_i := (snd (fst intervals) - fst (fst intervals)) / (2.0 * scaling_factor) in
  let ra_j := (snd (snd intervals) - fst (snd intervals)) / (2.0 * scaling_factor) in
  let c_i := (fst (fst intervals) + snd (fst intervals)) / 2.0 in
  let c_j := (fst (snd intervals) + snd (snd intervals)) / 2.0 in
  let x_i := linspace (fst (fst plot_intervals)) (snd (fst plot_intervals)) num_samples in
  let x_j := linspace (fst (snd plot_intervals)) (snd (snd plot_intervals)) num_samples in
  (forall m, (m < _m s)%nat ->
     _is_pos_def eigvals (rescaled_block s m i j ra_i ra_j) = true) ->
  (forall m fuel', (m < _m s)%nat ->
     repair eigvals fuel' 2 (rescaled_block s m i j ra_i ra_j)
     = Ok (rescaled_block s m i j ra_i ra_j)) /\
  (forall x y distr s',
     (_m s <= length (_mu s))%nat ->
     get_multivariate eigvals mvn_pdf fuel i j intervals plot_intervals scaling_factor
       num_samples s = (Ok (x, y, distr), s') ->
     forall r c, (r < num_samples)%nat -> (c < num_samples)%nat ->
       mget distr r c
       = sigma_sum (_m s) (fun m =>
           vget (_pi s) m
           * mvn_pdf [vget x_i c; vget x_j r]
               [ra_i * mget (_mu s) m i + c_i; ra_j * mget (_mu s) m j + c_j]
               (rescaled_block s m i j ra_i ra_j))).
Proof.
  intros ra_i ra_j c_i c_j x_i x_j Hpd. split.
  - intros m fuel' Hm. now apply repair_when_pd, Hpd.
  - intros x y distr s' Hmu Hrun r c Hr Hc.
    assert (Hxi : length x_i = num_samples) by apply length_tabulate.
    assert (Hxj : length x_j = num_samples) by apply length_tabulate.
    unfold get_multivariate in Hrun. unfold bind at 1 in Hrun. unfold get in Hrun.
    cbv beta iota zeta in Hrun. unfold bind in Hrun.
    fold ra_i ra_j c_i c_j x_i x_j in Hrun.
    destruct (multivariate_loop _ _ _ _ _ _ _ _ _ _ _ _ _ s) as [[d0|e|] s1] eqn:Eloop;
      try discriminate.
    unfold ret in Hrun. inversion Hrun; subst x y distr s'. clear Hrun.
    apply multivariate_loop_run in Eloop;
      [| now rewrite repeat_length
       | intros r' Hr'; rewrite row_zeros by (now rewrite <- Hxj); now rewrite Hxi ].
    destruct Eloop as (_ & _ & _ & Hget).
    rewrite Hget by lia. rewrite mget_zeros by assumption.
    change (map ?f (seq 0 (_m s))) with (tabulate (_m s) f).
    rewrite Rsum_tabulate, Rplus_0_l.
    apply sigma_sum_ext. intros m Hm.
    unfold repaired_block. rewrite repair_when_pd by now apply Hpd.
    unfold vget at 4 6.
    rewrite !(nth_map_lt _ (_mu s) m 0 []) by lia. reflexivity.
Qed.

End JointDensity.

Lemma new_plane_model_blocks_pass (m : nat) :
  (m < _m (new_model 1 2 [[0; 0]]%R))%nat ->
  _is_pos_def eigvals_diag
    (rescaled_block (new_model 1 2 [[0; 0]]) m 0 1
       ((1 - -1) / (2.0 * 1)) ((1 - -1) / (2.0 * 1))) = true.
Proof.
  intro Hm. simpl in Hm. assert (m = 0)%nat as -> by lia.
  apply pd_diag_iff. simpl. intros [|[|i]] Hi; try lia;
    unfold mget, row, vget, tget, slab; simpl; unfold mget, row, vget; simpl;
    [replace (tget [identity 2] 0 0 0) with 1 by reflexivity
    | replace (tget [identity 2] 0 1 1) with 1 by reflexivity]; lra.
Qed.

Lemma multivariate_new_model_run :
  exists x y distr,
    get_multivariate eigvals_diag mvn_pdf_diag 0 0 1 ((-1, 1), (-1, 1)) ((0, 1), (0, 1))
      1 3 (new_model 1 2 [[0; 0]]) = (Ok (x, y, distr), new_model 1 2 [[0; 0]]).
Proof.
  unfold get_multivariate. unfold bind at 1. unfold get. cbv beta iota zeta.
  unfold bind.
  match goal with
  | |- context [multivariate_loop ?a ?b ?c ?d ?e ?f ?g ?h ?k ?l ?x ?y ?z ?t] =>
      destruct (multivariate_loop_returns a b c d e f g h k l x y z t) as [distr ->]
  end.
  - intros m Hm. apply new_plane_model_blocks_pass. apply in_seq in Hm. simpl in *. lia.
  - eexists; eexists; eexists. reflexivity.
Qed.

Lemma get_multivariate_is_weighted_normal_sum_witness :
  exists x y distr,
    get_multivariate eigvals_diag mvn_pdf_diag 0 0 1 ((-1, 1), (-1, 1)) ((0, 1), (0, 1))
      1 3 (new_model 1 2 [[0; 0]]) = (Ok (x, y, distr), new_model 1 2 [[0; 0]]) /\
    length x = 3%nat /\ length y = 3%nat /\ length distr = 3%nat.
Proof.
  destruct multivariate_new_model_run as (x & y & distr & Hrun).
  exists x, y, distr. split; [exact Hrun|].
  destruct (get_multivariate_is_weighted_normal_sum eigvals_diag mvn_pdf_diag 0 0 1
              ((-1, 1), (-1, 1)) ((0, 1), (0, 1)) 1 3
              (new_model 1 2 [[0; 0]]) (new_model 1 2 [[0; 0]]) x y distr)
    as (_ & Hx & Hy & Hd & _).
  - simpl. lia.
  - exact Hrun.
  - split; [exact Hx|]. split; [exact Hy | exact Hd].
Defined.

Lemma get_multivariate_keeps_blocks_that_pass_witness :
  repair eigvals_diag 0 2
    (rescaled_block (new_model 1 2 [[0; 0]]) 0 0 1
       ((1 - -1) / (2.0 * 1)) ((1 - -1) / (2.0 * 1)))
  = Ok (rescaled_block (new_model 1 2 [[0; 0]]) 0 0 1
          ((1 - -1) / (2.0 * 1)) ((1 - -1) / (2.0 * 1))).
Proof.
  destruct (get_multivariate_keeps_blocks_that_pass eigvals_diag mvn_pdf_diag 0 0 1
              ((-1, 1), (-1, 1)) ((0, 1), (0, 1)) 1 3 (new_model 1 2 [[0; 0]])
              new_plane_model_blocks_pass) as [H _].
  apply (H 0%nat 0%nat). simpl. lia.
Defined.

Lemma exp_nonpos_le_1 (y : R) : y <= 0 -> exp y <= 1.
Proof.
  intros [Hlt | ->]; [|rewrite exp_0; lra].
  left. rewrite <- exp_0. now apply exp_increasing.
Qed.

(** The normal density is between 0 and its value at the mean. *)
Lemma normal_density_bounds (mean var x : R) :
  0 < var -> 0 <= normal_density mean var x <= 1 / sqrt (2 * PI * var).
Proof.
  intro Hv. unfold normal_density.
  assert (Hs : 0 < sqrt (2 * PI * var))
    by (apply sqrt_lt_R0; pose proof PI_RGT_0; nra).
  assert (He : exp (- (x - mean) ^ 2 / (2 * var)) <= 1).
  { apply exp_nonpos_le_1.
    assert (0 <= (x - mean) ^ 2 / (2 * var))
      by (apply Rle_mult_inv_pos; [apply pow2_ge_0 | lra]).
    unfold Rdiv in *. lra. }
  pose proof (exp_pos (- (x - mean) ^ 2 / (2 * var))) as Hp.
  split.
  - apply Rle_mult_inv_pos; lra.
  - unfold Rdiv. apply Rmult_le_compat_r; [left; now apply Rinv_0_lt_compat | exact He].
Qed.

(** X19: on a model with non-negative weights and positive rescaled
    variances, every density value that [get_marginal] returns is
    non-negative and at most the sum over the mixtures of the weight times
    the height [1 / sqrt (2 * pi * var)] of the normal density at its
    mean. *)
Theorem marginal_density_is_bounded (i : nat) (interval plot_interval : R * R)
    (scaling_factor : R) (num_samples : nat) (s s' : GMM) (x distr : vec) (k : nat) :
  let ra := (snd interval - fst interval) / (2.0 * scaling_factor) in
  (_m s <= length (_sigma s))%nat ->
  (forall m, (m < _m s)%nat -> 0 <= vget (_pi s) m) ->
  (forall m, (m < _m s)%nat -> 0 < tget (_sigma s) m i i * ra ^ 2) ->
  get_marginal i interval plot_interval scaling_factor num_samples s
  = (Ok (x, distr), s') ->
  (k < num_samples)%nat ->
  0 <= vget distr k
  <= sigma_sum (_m s) (fun m =>
       vget (_pi s) m * (1 / sqrt (2 * PI * (tget (_sigma s) m i i * ra ^ 2)))).
Proof.
  intros ra Hsigma Hpi Hvar Hrun Hk.
  unfold get_marginal, bind, get, ret in Hrun. fold ra in Hrun.
  inversion Hrun; subst x distr s'. clear Hrun.
  set (x := linspace (fst plot_interval) (snd plot_interval) num_samples).
  set (mu := map _ (_mu s)). set (var := map _ (_sigma s)).
  assert (Hx : length x = num_samples) by apply length_tabulate.
  destruct (accumulate_densities
    (fun m xk => vget (_pi s) m * normpdf xk (vget mu m) (sqrt (vget var m)))
    x (_m s)) as [_ Hget].
  rewrite Hget by (now rewrite Hx).
  assert (Hterm : forall m, (m < _m s)%nat ->
            0 <= vget (_pi s) m * normpdf (vget x k) (vget mu m) (sqrt (vget var m))
            <= vget (_pi s) m * (1 / sqrt (2 * PI * (tget (_sigma s) m i i * ra ^ 2)))).
  { intros m Hm.
    assert (Evar : vget var m = tget (_sigma s) m i i * ra ^ 2)
      by (unfold vget at 1, var; now rewrite (nth_map_lt _ (_sigma s) m 0 []) by lia).
    rewrite Evar, normpdf_sqrt by now apply Hvar.
    destruct (normal_density_bounds (vget mu m) _ (vget x k) (Hvar m Hm)) as [Hlo Hhi].
    specialize (Hpi m Hm). split.
    - now apply Rmult_le_pos.
    - now apply Rmult_le_compat_l. }
  split.
  - apply sigma_sum_nonneg. intros m Hm. now apply Hterm.
  - apply sigma_sum_le. intros m Hm. now apply Hterm.
Qed.

Lemma marginal_density_is_bounded_witness :
  exists x distr,
    get_marginal 0 (-1, 1) (0, 10) 1 3 fitted_model = (Ok (x, distr), fitted_model) /\
    0 <= vget distr 1.
Proof.
  eexists. eexists. split; [reflexivity|].
  eapply (marginal_density_is_bounded 0 (-1, 1) (0, 10) 1 3 fitted_model fitted_model).
  - simpl. lia.
  - intros m Hm. simpl in Hm. assert (m = 0)%nat as -> by lia.
    unfold vget; simpl. lra.
  - intros m Hm. simpl in Hm. assert (m = 0)%nat as -> by lia.
    unfold tget, mget, slab, row, vget. simpl. lra.
  - reflexivity.
  - lia.
Defined.

(** X20: construction with [M >= 1] mixtures in dimension [D] returns a
    model with [M] weights, each [1 / M], of sum 1, the drawn means, [M]
    covariances, each the [D] x [D] identity, no responsibilities and
    log-posterior 0. *)
Theorem constructed_model_is_uniform (m d : nat) (randn : matrix) :
  (0 < m)%nat ->
  exists s,
    __init__ m d randn = Ok s /\
    _m s = m /\ _d s = d /\
    length (_pi s) = m /\ Rsum (_pi s) = 1 /\
    (forall k, (k < m)%nat -> vget (_pi s) k = 1 / INR m) /\
    _mu s = randn /\
    length (_sigma s) = m /\
    (forall k, (k < m)%nat ->
       slab (_sigma s) k = identity d /\ is_square d (slab (_sigma s) k)) /\
    _gamma s = None /\ _post s = 0.
Proof.
  intro Hm. assert (0 < INR m) by now apply lt_0_INR.
  exists (new_model m d randn). unfold new_model; simpl.
  split; [reflexivity|]. split; [reflexivity|]. split; [reflexivity|].
  split; [now rewrite length_map, repeat_length|].
  split; [rewrite Rsum_scaled_ones; field; lra|].
  split.
  - intros k Hk. unfold vget.
    rewrite (nth_map_lt _ _ k 0 0) by (now rewrite repeat_length).
    now rewrite nth_repeat_lt.
  - split; [reflexivity|]. split; [apply repeat_length|].
    split; [|split; reflexivity].
    intros k Hk. unfold slab. rewrite nth_repeat_lt by assumption.
    split; [reflexivity | apply identity_square].
Qed.

Lemma constructed_model_is_uniform_witness :
  exists s, __init__ 4 2 [[0; 0]; [1; 1]; [2; 2]; [3; 3]] = Ok s /\ Rsum (_pi s) = 1.
Proof.
  destruct (constructed_model_is_uniform 4 2 [[0; 0]; [1; 1]; [2; 2]; [3; 3]])
    as (s & Hs & _ & _ & _ & Hsum & _).
  - lia.
  - exists s. split; [exact Hs | exact Hsum].
Defined.
